(** * tap-exchangeratesapi: the replication loop, its fetcher and its record shaping

    A shallow embedding of [tap_exchangeratesapi/__init__.py].  Python
    dictionaries are finite maps, the module-level [schema] and the objects
    that [parse_response] mutates are threaded explicitly, exceptions are
    values, and everything the program asks of the outside (the provider's
    answers, the clock, the jitter samples, the date parser of the command
    line layer) is read from an [env] record. *)

From Stdlib Require Import ZArith QArith Floats Ascii String List Lia.
From stdpp Require Import base option list strings functions sorting gmap fin_maps.

Local Open Scope string_scope.
Local Open Scope list_scope.
Local Open Scope Z_scope.

(** ** Calendar dates and the two formats the program uses *)

Module Calendar.

(** What [datetime.strptime(_, '%Y-%m-%d')] yields: a proleptic Gregorian
    day (the time of day is midnight). *)
Record date := mkdate { year : Z; month : Z; day : Z }.

Global Instance date_eq_dec : EqDecision date.
Proof. solve_decision. Defined.

Definition MINYEAR : Z := 1.
Definition MAXYEAR : Z := 9999.

Definition is_leap (y : Z) : bool :=
  (y mod 4 =? 0) && (negb (y mod 100 =? 0) || (y mod 400 =? 0)).

Definition days_in_month (y m : Z) : Z :=
  if m =? 2 then (if is_leap y then 29 else 28)
  else if (m =? 4) || (m =? 6) || (m =? 9) || (m =? 11) then 30
  else 31.

(** The checks of the [date] constructor of the standard library. *)
Definition valid_date (d : date) : bool :=
  (MINYEAR <=? year d) && (year d <=? MAXYEAR) &&
  (1 <=? month d) && (month d <=? 12) &&
  (1 <=? day d) && (day d <=? days_in_month (year d) (month d)).

(** Comparison of dates is lexicographic on year, month, day. *)
Definition date_ltb (a b : date) : bool :=
  (year a <? year b) ||
  ((year a =? year b) &&
   ((month a <? month b) || ((month a =? month b) && (day a <? day b)))).

Definition date_leb (a b : date) : bool := negb (date_ltb b a).

(** [utcnow()]: a day and the time elapsed since its midnight, in
    microseconds. *)
Record datetime := mkdatetime { dt_date : date; dt_time : N }.

Definition at_midnight (d : date) : datetime := mkdatetime d 0%N.

Definition datetime_leb (a b : datetime) : bool :=
  date_ltb (dt_date a) (dt_date b) ||
  (bool_decide (dt_date a = dt_date b) && (dt_time a <=? dt_time b)%N).

(** [d + timedelta(days=1)]; [None] is the [OverflowError] raised past
    9999-12-31. *)
Definition add_one_day (d : date) : option date :=
  if day d <? days_in_month (year d) (month d)
  then Some (mkdate (year d) (month d) (day d + 1))
  else if month d <? 12
  then Some (mkdate (year d) (month d + 1) 1)
  else if year d <? MAXYEAR
  then Some (mkdate (year d + 1) 1 1)
  else None.

(** The last day of the calendar. *)
Definition max_date : date := mkdate 9999 12 31.

(** A measure that grows with each day and is bounded on the calendar. *)
Definition rank (d : date) : Z := (year d * 12 + month d) * 31 + day d.

(** *** Digits *)

Definition digit (n : Z) : ascii := ascii_of_N (48 + Z.to_N n).

Definition digit_val (c : ascii) : option Z :=
  let n := Z.of_N (N_of_ascii c) in
  if (48 <=? n) && (n <=? 57) then Some (n - 48) else None.

Definition pad2 (n : Z) : string :=
  String (digit (n / 10)) (String (digit (n mod 10)) EmptyString).

Definition pad4 (n : Z) : string :=
  String (digit (n / 1000)) (String (digit (n / 100 mod 10)) (pad2 (n mod 100))).

(** [%Y] as the C library writes it for CPython on Linux: the year in
    decimal, with no zero fill, so with fewer than four digits below 1000. *)
Definition decimal_year (y : Z) : string :=
  if y <? 10 then String (digit y) EmptyString
  else if y <? 100 then pad2 y
  else if y <? 1000 then String (digit (y / 100)) (pad2 (y mod 100))
  else pad4 y.

(** [strftime('%Y-%m-%d')] of a date: the year as [%Y] writes it, then two
    and two digits, zero filled. *)
Definition strftime (d : date) : string :=
  decimal_year (year d) +:+ "-" +:+ pad2 (month d) +:+ "-" +:+ pad2 (day d).

(** [time.strftime('%Y-%m-%dT%H:%M:%SZ', _)] of a parsed day: the fields
    [%H], [%M] and [%S] of a value parsed with ['%Y-%m-%d'] are zero. *)
Definition strftime_timestamp (d : date) : string :=
  strftime d +:+ "T" +:+ pad2 0 +:+ ":" +:+ pad2 0 +:+ ":" +:+ pad2 0 +:+ "Z".

(** *** Parsing with the format ['%Y-%m-%d']

    The directive [%Y] takes exactly four digits; [%m] takes [10]-[12],
    [01]-[09] or [1]-[9]; [%d] takes [30]-[31], [10]-[29], [01]-[09],
    [1]-[9] or a blank followed by [1]-[9].  The whole string must be
    consumed and the fields must form a date.  Digits are the ASCII ones. *)

Definition num2 (a b : ascii) : option Z :=
  x ← digit_val a; y ← digit_val b; Some (10 * x + y).

Definition num4 (a b c d : ascii) : option Z :=
  x ← num2 a b; y ← num2 c d; Some (100 * x + y).

Definition parse_month (s : string) : option Z :=
  match s with
  | String a EmptyString =>
      x ← digit_val a; if 1 <=? x then Some x else None
  | String a (String b EmptyString) =>
      x ← num2 a b; if (1 <=? x) && (x <=? 12) then Some x else None
  | _ => None
  end.

Definition parse_day (s : string) : option Z :=
  match s with
  | String a EmptyString =>
      x ← digit_val a; if 1 <=? x then Some x else None
  | String a (String b EmptyString) =>
      if Ascii.eqb a " "
      then x ← digit_val b; if 1 <=? x then Some x else None
      else x ← num2 a b; if (1 <=? x) && (x <=? 31) then Some x else None
  | _ => None
  end.

(** Splits at the first ["-"]. *)
Fixpoint split_dash (s : string) : option (string * string) :=
  match s with
  | EmptyString => None
  | String c rest =>
      if Ascii.eqb c "-" then Some (EmptyString, rest)
      else '(l, r) ← split_dash rest; Some (String c l, r)
  end.

(** [None] is the [ValueError] of [strptime]. *)
Definition strptime (s : string) : option date :=
  match s with
  | String a (String b (String c (String d (String sep rest)))) =>
      if Ascii.eqb sep "-" then
        y ← num4 a b c d;
        '(ms, ds) ← split_dash rest;
        m ← parse_month ms;
        dd ← parse_day ds;
        let r := mkdate y m dd in
        if valid_date r then Some r else None
      else None
  | _ => None
  end.

End Calendar.

(** ** The program *)

Module Tap.

(** *** Data *)

(** A JSON scalar as the program meets it: a number of the rates table (the
    program stores and forwards numbers and never computes with them, so a
    rational stands for the float) or a string. *)
Inductive value :=
| VNum (q : Q)
| VStr (s : string).

(** A Python [dict] with string keys. *)
Abbreviation dict := (gmap string value).

(** Objects that are mutated in place live in a store and are known by
    their address. *)
Abbreviation loc := positive.
Abbreviation store := (loc → dict).

(** The provider's answer [{base, date, rates}].  [payload dict] is the
    decoded JSON document, [payload loc] the Python object whose [rates]
    entry refers to a dictionary of the store. *)
Record payload (R : Type) := mkpayload { base : string; date : string; rates : R }.
Arguments mkpayload {R} _ _ _.
Arguments base {R} _.
Arguments date {R} _.
Arguments rates {R} _.

(** What [response.json()] decodes when the body is a JSON object: each of
    the three members may be missing.  A member that is present has the
    type the provider gives it ([rates] an object, the others strings). *)
Record document := mkdocument {
  doc_base : option string;
  doc_date : option string;
  doc_rates : option dict
}.

(** JSON Schema fragments: the value under ['type'] is a name or a list of
    names. *)
Inductive json_type :=
| TypeName (s : string)
| TypeList (l : list string).

Record property := mkproperty { p_type : json_type; p_format : option string }.

Record schema_t := mkschema { s_type : string; properties : gmap string property }.

Global Instance json_type_eq_dec : EqDecision json_type.
Proof. solve_decision. Defined.
Global Instance property_eq_dec : EqDecision property.
Proof. solve_decision. Defined.
Global Instance schema_eq_dec : EqDecision schema_t.
Proof. solve_decision. Defined.

(** The module-level [schema] as the interpreter first builds it. *)
Definition schema : schema_t :=
  mkschema "object" {[ "date" := mkproperty (TypeName "string") (Some "date-time") ]}.

(** [{'type': ['null', 'number']}] *)
Definition nullable_number : property :=
  mkproperty (TypeList ["null"; "number"]) None.

Record exchange := mkexchange { ex_base : string; symbols : list string }.

Record config := mkconfig {
  apikey : string;
  exchanges : list exchange;
  start_date : string;
  schemaless : bool
}.

(** What the run writes downstream. *)
Inductive record :=
| Raw (p : document)
| Flat (d : dict).

Inductive message :=
| SCHEMA (stream : string) (s : schema_t) (key_properties : string)
| RECORD (stream : string) (r : record)
| STATE (start : string).

(** *** HTTP *)

Record request_args := mkrequest {
  url : string;
  param_base : string;
  param_symbols : list string;
  header_apikey : string
}.

(** A response; [json] is what [response.json()] decodes from it, [None]
    when the body is not JSON. *)
Record http_response := mkresponse {
  status_code : Z;
  text : string;
  json : option document
}.

(** One call of [requests.get]: an answer, or no answer at all. *)
Inductive http_result :=
| ConnectionFailed
| Replied (r : http_response).

(** Exceptions.  [RequestException] is the base class of [requests]: its
    [request] and [response] attributes are [None] unless the raiser set
    them.  [raise_for_status] sets both; a connection failure has no
    response; the [JSONDecodeError] of [response.json()], which is a
    [RequestException] too, has neither. *)
Inductive exn :=
| RequestException (request : option string) (response : option http_response)
| AttributeError
| ValueError
| OverflowError
| KeyError.

Inductive outcome (A : Type) :=
| Ok (a : A)
| Raise (e : exn).
Arguments Ok {A} _.
Arguments Raise {A} _.

(** Everything outside of the program. *)
Record env := mkenv {
  (** the answer to the n-th call of [requests.get] *)
  http_get : nat → request_args → http_result;
  (** the clock at the n-th test of the [while] condition *)
  utcnow : nat → Calendar.datetime;
  (** [random.random()] drawn for the wait after the n-th call *)
  random : nat → float;
  (** [singer.utils.strptime_with_tz(_).date()]; [None] when it raises *)
  strptime_with_tz : string → option Calendar.date
}.

Definition base_url (d : string) : string :=
  "https://api.apilayer.com/exchangerates_data/" +:+ d.

(** *** [parse_response] *)

Definition parse_response (r : payload loc) (σ : store) : outcome loc * store :=
  let flattened := rates r in
  let σ1 := <[flattened := <[base r := VNum 1]> (σ flattened)]> σ in
  match Calendar.strptime (date r) with
  | None => (Raise ValueError, σ1)
  | Some d =>
      (Ok flattened,
       <[flattened := <["date" := VStr (Calendar.strftime_timestamp d)]> (σ1 flattened)]> σ1)
  end.

(** *** The schema evolver (lines 92-94 of the loop body) *)

Definition observe_rate (sch : schema_t) (rate : string) : schema_t :=
  match properties sch !! rate with
  | Some _ => sch
  | None => mkschema (s_type sch) (<[rate := nullable_number]> (properties sch))
  end.

(** [for rate in payload['rates']]: the keys, one after the other. *)
Definition update_schema (sch : schema_t) (rs : dict) : schema_t :=
  foldl observe_rate sch (map_to_list rs).*1.

(** *** Process state *)

(** What outlives an iteration: the module-level schema object, the
    messages written so far, and the use made of the outside. *)
Record proc := mkproc {
  cur_schema : schema_t;
  out : list message;
  calls : nat;
  slept : list float
}.

Definition emit (m : message) (p : proc) : proc :=
  mkproc (cur_schema p) (out p ++ [m]) (calls p) (slept p).

(** The local variables of [do_sync].  [prev_schema] is [None] while it is
    the empty dictionary, which no schema equals.  [walked] is a history
    variable: the values [next_date] had when the body of the [while] was
    entered. *)
Record frame := mkframe {
  state : string;
  next_date : string;
  prev_schema : option schema_t;
  walked : list string
}.

(** The body of the [while] is entered. *)
Definition enter (fr : frame) : frame :=
  mkframe (state fr) (next_date fr) (prev_schema fr) (walked fr ++ [next_date fr]).

(** Line 107: [state = {'start_date': next_date}]. *)
Definition checkpoint (fr : frame) : frame :=
  mkframe (next_date fr) (next_date fr) (prev_schema fr) (walked fr).

(** Lines 108 and 109, the next day being [d'] and [sch] the schema object:
    [next_date] is formatted anew and [prev_schema] is a deep copy. *)
Definition advance (d' : Calendar.date) (sch : schema_t) (fr : frame) : frame :=
  mkframe (state fr) (Calendar.strftime d') (Some sch) (walked fr).

(** How the process ends. *)
Inductive termination :=
| ExitNormally
| SysExit (code : Z)
| Uncaught (e : exn).

Record run := mkrun { r_proc : proc; r_frame : frame; r_exit : termination }.

(** What [main] did: it ended without calling [do_sync], or it ran it. *)
Inductive main_result :=
| NoSync (t : termination)
| Sync (r : run).

(** The payload object that [response.json()] built is fresh: nothing else
    refers to it. *)
Definition fresh_payload (p : payload dict) : payload loc * store :=
  (mkpayload (base p) (date p) 1%positive, <[1%positive := rates p]> (λ _, ∅)).

(** *** [giveup] and the decorated [request] *)

(** [error.response] is dereferenced first, for the log line. *)
Definition giveup (response : option http_response) : outcome bool :=
  match response with
  | None => Raise AttributeError
  | Some r => Ok (negb ((status_code r =? 429) || (500 <=? status_code r)))
  end.

Definition max_tries : nat := 5.
Definition interval : float := 30%float.

(** How a call of [request] went: its result, and the waits it slept. *)
Record fetched := mkfetched {
  f_result : outcome http_response;
  f_calls : nat;
  f_slept : list float
}.

Section WithEnv.

Context (E : env).

(** The undecorated body: [requests.get] then [raise_for_status]. *)
Definition request_once (n : nat) (a : request_args) : outcome http_response :=
  match http_get E n a with
  | ConnectionFailed => Raise (RequestException (Some (url a)) None)
  | Replied r =>
      if (400 <=? status_code r) && (status_code r <? 600)
      then Raise (RequestException (Some (url a)) (Some r))
      else Ok r
  end.

(** [backoff.on_exception(backoff.constant, RequestException, jitter =
    random_jitter, max_tries, giveup, interval)]: [more] is [max_tries]
    minus the number of the current try; [n] counts the calls made so far.
    On an exception [giveup] is evaluated before the try count is looked at.
    The wait is the float sum of the interval and the sample. *)
Fixpoint on_exception (more : nat) (n : nat) (slept : list float) (a : request_args)
  : fetched :=
  match request_once n a with
  | Ok r => mkfetched (Ok r) (S n) slept
  | Raise (RequestException rq resp) =>
      match giveup resp with
      | Raise e' => mkfetched (Raise e') (S n) slept
      | Ok g =>
          match more with
          | O => mkfetched (Raise (RequestException rq resp)) (S n) slept
          | S more' =>
              if g then mkfetched (Raise (RequestException rq resp)) (S n) slept
              else on_exception more' (S n) (slept ++ [(interval + random E n)%float]) a
          end
      end
  | Raise e => mkfetched (Raise e) (S n) slept
  end.

Definition request (n : nat) (a : request_args) : fetched :=
  on_exception (max_tries - 1) n [] a.

(** *** [do_sync] *)

(** The body of [for exchange in exchanges].  The entries of the payload
    are looked up where the code looks them up: [rates] for the schema,
    [date] after the schema is written, [base] inside [parse_response]. *)
Definition exchange_step (cfg : config) (next : string) (prev : option schema_t)
    (ex : exchange) (p : proc) : proc * option exn :=
  let f := request (calls p)
             (mkrequest (base_url next) (ex_base ex) (symbols ex) (apikey cfg)) in
  let p1 := mkproc (cur_schema p) (out p) (f_calls f) (slept p ++ f_slept f) in
  match f_result f with
  | Raise e => (p1, Some e)
  | Ok response =>
      match json response with
      | None => (p1, Some (RequestException None None))
      | Some payload =>
          match doc_rates payload with
          | None => (p1, Some KeyError)
          | Some rs =>
              let sch := update_schema (cur_schema p1) rs in
              let p2 := mkproc sch (out p1) (calls p1) (slept p1) in
              let p3 := if decide (Some sch ≠ prev)
                        then emit (SCHEMA "exchange_rate" sch "date") p2 else p2 in
              match doc_date payload with
              | None => (p3, Some KeyError)
              | Some dt =>
                  if decide (dt = next) then
                    if schemaless cfg
                    then (emit (RECORD "exchange_rate" (Raw payload)) p3, None)
                    else
                      match doc_base payload with
                      | None => (p3, Some KeyError)
                      | Some b =>
                          let '(r, σ) := fresh_payload (mkpayload b dt rs) in
                          match parse_response r σ with
                          | (Ok l, σ') =>
                              (emit (RECORD "exchange_rate" (Flat (σ' l))) p3, None)
                          | (Raise e, _) => (p3, Some e)
                          end
                      end
                  else (p3, None)
              end
          end
      end
  end.

Fixpoint for_exchanges (cfg : config) (next : string) (prev : option schema_t)
    (exs : list exchange) (p : proc) : proc * option exn :=
  match exs with
  | [] => (p, None)
  | ex :: rest =>
      match exchange_step cfg next prev ex p with
      | (p', None) => for_exchanges cfg next prev rest p'
      | stop => stop
      end
  end.

(** The [while] loop, [i] iterations in; what leaves it is either the
    fall-through ([None]) or an exception.  [fuel] bounds the number of
    tests of the condition. *)
Fixpoint while_loop (fuel : nat) (cfg : config) (i : nat) (p : proc) (fr : frame)
  : option (proc * frame * option exn) :=
  match fuel with
  | O => None
  | S fuel' =>
      match Calendar.strptime (next_date fr) with
      | None => Some (p, fr, Some ValueError)
      | Some d =>
          if Calendar.datetime_leb (Calendar.at_midnight d) (utcnow E i) then
            match for_exchanges cfg (next_date fr) (prev_schema fr) (exchanges cfg) p with
            | (p', Some e) => Some (p', enter fr, Some e)
            | (p', None) =>
                match Calendar.add_one_day d with
                | None => Some (p', checkpoint (enter fr), Some OverflowError)
                | Some d' =>
                    while_loop fuel' cfg (S i) p'
                      (advance d' (cur_schema p') (checkpoint (enter fr)))
                end
            end
          else Some (p, fr, None)
      end
  end.

(** The [except] clause and what follows the [try]. *)
Definition finish (p : proc) (fr : frame) (raised : option exn) : run :=
  match raised with
  | None => mkrun (emit (STATE (state fr)) p) fr ExitNormally
  | Some (RequestException (Some _) (Some _)) =>
      mkrun (emit (STATE (state fr)) p) fr (SysExit (-1))
  | Some (RequestException _ _) => mkrun p fr (Uncaught AttributeError)
  | Some e => mkrun p fr (Uncaught e)
  end.

Definition do_sync_from (fuel : nat) (cfg : config) (start : string) (p : proc)
  : option run :=
  '(p', fr, raised) ← while_loop fuel cfg 0 p (mkframe start start None []);
  Some (finish p' fr raised).

(** The process as the interpreter starts it: the literal schema, nothing
    written, nothing asked. *)
Definition boot : proc := mkproc schema [] 0 [].

Definition do_sync (fuel : nat) (cfg : config) (start : string) : option run :=
  do_sync_from fuel cfg start boot.

(** *** [main]

    [args_state] is [args.state], the decoded state file, empty when none
    was given. *)
Definition main (fuel : nat) (cfg : config) (args_state : gmap string string)
  : option main_result :=
  let state0 : gmap string string := ∅ in
  if decide (args_state ≠ ∅) then
    let state1 := args_state ∪ state0 in
    Some (NoSync ExitNormally)
  else
    let start :=
      match state0 !! "start_date" with
      | Some s => if decide (s = "") then start_date cfg else s
      | None => start_date cfg
      end in
    match strptime_with_tz E start with
    | None => Some (NoSync (Uncaught ValueError))
    | Some d => Sync <$> do_sync fuel cfg (Calendar.strftime d)
    end.

End WithEnv.

End Tap.

(** ** Concrete runs *)

Module Scenarios.
Import Tap.

Definition day (y m d : Z) : Calendar.datetime :=
  Calendar.mkdatetime (Calendar.mkdate y m d) 43200000000%N.

(** The date a request asks for: what follows the 44 characters of the
    base URL. *)
Definition asked_date (a : request_args) : string :=
  String.substring 44 10 (url a).

Definition eur_gbp : dict := <["EUR" := VNum (9 # 10)]> (<["GBP" := VNum (8 # 10)]> ∅).

(** An answer with its three members. *)
Definition served (base date : string) (rs : dict) : http_response :=
  mkresponse 200 "" (Some (mkdocument (Some base) (Some date) (Some rs))).

Definition denied (status : Z) : http_response := mkresponse status "denied" None.

(** A provider that answers every request with the date asked for. *)
Definition echo (rs : dict) (n : nat) (a : request_args) : http_result :=
  Replied (served (param_base a) (asked_date a) rs).

Definition refuse (status : Z) (n : nat) (a : request_args) : http_result :=
  Replied (denied status).

(** The first [k] calls are answered by [first], the others by [then_]. *)
Definition switch (k : nat) (first then_ : nat → request_args → http_result)
    (n : nat) (a : request_args) : http_result :=
  if (n <? k)%nat then first n a else then_ n a.

Definition world (http : nat → request_args → http_result)
    (now : Calendar.datetime) : env :=
  mkenv http (λ _, now) (λ _, 0.5%float) Calendar.strptime.

Definition usd : exchange := mkexchange "USD" ["EUR"; "GBP"].
Definition eur : exchange := mkexchange "EUR" ["EUR"; "GBP"].

Definition typed (exs : list exchange) : config :=
  mkconfig "secret" exs "2024-01-01" false.

Definition schema_eur_gbp : schema_t :=
  mkschema "object"
    (<["EUR" := nullable_number]> (<["GBP" := nullable_number]> (properties schema))).

Definition flat (base d : string) : record :=
  Flat (<["date" := VStr (d +:+ "T00:00:00Z")]> (<[base := VNum 1]> eur_gbp)).

(** Two days, one exchange, a provider that always answers. *)
Definition two_days : env := world (echo eur_gbp) (day 2024 1 2).

Definition two_days_run : run :=
  mkrun
    (mkproc schema_eur_gbp
       [SCHEMA "exchange_rate" schema_eur_gbp "date";
        RECORD "exchange_rate" (flat "USD" "2024-01-01");
        RECORD "exchange_rate" (flat "USD" "2024-01-02");
        STATE "2024-01-02"]
       2 [])
    (mkframe "2024-01-02" "2024-01-03" (Some schema_eur_gbp)
       ["2024-01-01"; "2024-01-02"])
    ExitNormally.

(** The provider refuses the very first request with a 403. *)
Definition refused_at_once : env := world (refuse 403) (day 2024 1 2).

Definition refused_at_once_run : run :=
  mkrun (mkproc schema [STATE "2024-01-01"] 1 [])
    (mkframe "2024-01-01" "2024-01-01" None ["2024-01-01"])
    (SysExit (-1)).

(** The first day is served, the second is refused. *)
Definition refused_on_second_day : env :=
  world (switch 1 (echo eur_gbp) (refuse 403)) (day 2024 1 2).

Definition refused_on_second_day_run : run :=
  mkrun
    (mkproc schema_eur_gbp
       [SCHEMA "exchange_rate" schema_eur_gbp "date";
        RECORD "exchange_rate" (flat "USD" "2024-01-01");
        STATE "2024-01-01"]
       2 [])
    (mkframe "2024-01-01" "2024-01-02" (Some schema_eur_gbp)
       ["2024-01-01"; "2024-01-02"])
    (SysExit (-1)).

(** One day, two exchanges, the same two codes in both answers. *)
Definition one_day : env := world (echo eur_gbp) (day 2024 1 1).

Definition one_day_two_exchanges_run : run :=
  mkrun
    (mkproc schema_eur_gbp
       [SCHEMA "exchange_rate" schema_eur_gbp "date";
        RECORD "exchange_rate" (flat "USD" "2024-01-01");
        SCHEMA "exchange_rate" schema_eur_gbp "date";
        RECORD "exchange_rate" (flat "EUR" "2024-01-01");
        STATE "2024-01-01"]
       2 [])
    (mkframe "2024-01-01" "2024-01-02" (Some schema_eur_gbp) ["2024-01-01"])
    ExitNormally.




(** No call gets an answer. *)
Definition unreachable : env := world (λ _ _, ConnectionFailed) (day 2024 1 1).

Definition unreachable_run : run :=
  mkrun (mkproc schema [] 1 [])
    (mkframe "2024-01-01" "2024-01-01" None ["2024-01-01"])
    (Uncaught AttributeError).

(** A payload object at address 7 whose rates already hold the base
    currency and a key named date. *)
Definition crowded : dict :=
  <["date" := VStr "yesterday"]> (<["USD" := VNum (1 # 2)]> eur_gbp).

Definition crowded_payload : payload loc := mkpayload "USD" "2024-01-01" 7%positive.

Definition crowded_store : store := <[7%positive := crowded]> (λ _, ∅).

(** The provider is overloaded: every call is answered with a 503. *)
Definition overloaded : env := world (refuse 503) (day 2024 1 1).

(** Two 503 answers, then the data. *)
Definition flaky : env := world (switch 2 (refuse 503) (echo eur_gbp)) (day 2024 1 1).

(** Payload objects at address 7 whose base currency is the word [date],
    and whose date lies before the year 1000. *)
Definition plain_store : store := <[7%positive := eur_gbp]> (λ _, ∅).

Definition date_based_payload : payload loc := mkpayload "date" "2024-01-01" 7%positive.

Definition early_payload : payload loc := mkpayload "USD" "0999-01-01" 7%positive.

(** A run started in the year 500 with the provider of [two_days]: one
    date is walked, and the date string made for the next one is
    [500-01-02]. *)
Definition early_run : run :=
  mkrun
    (mkproc schema_eur_gbp
       [SCHEMA "exchange_rate" schema_eur_gbp "date";
        RECORD "exchange_rate"
          (Flat (<["date" := VStr "500-01-01T00:00:00Z"]> (<["USD" := VNum 1]> eur_gbp)))]
       1 [])
    (mkframe "0500-01-01" "500-01-02" (Some schema_eur_gbp) ["0500-01-01"])
    (Uncaught ValueError).

(** A payload object whose date is no day of the calendar. *)
Definition misdated_payload : payload loc := mkpayload "USD" "2024-02-30" 7%positive.

Definition usd_request : request_args :=
  mkrequest (base_url "2024-01-01") "USD" ["EUR"; "GBP"] "secret".

End Scenarios.

(** ** Vocabulary of the statements *)

Module Notions.
Import Tap.

(** A status is an error for [raise_for_status] from 400 to 599. *)
Definition failing (r : http_response) : Prop := 400 <= status_code r < 600.

(** The statuses [giveup] lets through to another try. *)
Definition retryable (r : http_response) : Prop :=
  status_code r = 429 ∨ 500 <= status_code r.

(** The waits of [k] tries that start at call [n]. *)
Definition waits (E : env) (n k : nat) : list float :=
  (λ j, (interval + random E j)%float) <$> seq n k.

(** What a run wrote, by kind of message. *)
Definition schemas_of (ms : list message) : list schema_t :=
  omap (λ m, match m with SCHEMA _ s _ => Some s | _ => None end) ms.

Definition records_of (ms : list message) : list record :=
  omap (λ m, match m with RECORD _ r => Some r | _ => None end) ms.

Definition states_of (ms : list message) : list string :=
  omap (λ m, match m with STATE d => Some d | _ => None end) ms.

(** [b] has every property of [a], with the declaration it has in [a], and
    the same top-level type. *)
Definition extends (a b : schema_t) : Prop :=
  s_type a = s_type b ∧ properties a ⊆ properties b.

(** What iterations do to the process: they append schema and record
    messages, never a state message, and every schema written lies between
    the schema object before and the schema object after; the schemas are
    written in growing order. *)
Definition grows (p p' : proc) : Prop :=
  ∃ added, out p' = out p ++ added ∧ states_of added = [] ∧
    StronglySorted extends (cur_schema p :: schemas_of added ++ [cur_schema p']).

(** The record that flattening makes of a payload whose date parses as [d]. *)
Definition flattened_of (pl : payload dict) (d : Calendar.date) : dict :=
  <["date" := VStr (Calendar.strftime_timestamp d)]> (<[base pl := VNum 1]> (rates pl)).

(** The checkpoint variable and the dates walked.  At the head of the loop
    [state] names the last date walked, or the start when there is none, and
    [next_date] is the day after it. *)
Definition at_head (start : string) (fr : frame) : Prop :=
  state fr = default start (last (walked fr)) ∧
  (walked fr = [] → next_date fr = start) ∧
  (walked fr ≠ [] →
   ∃ d d', Calendar.strptime (state fr) = Some d ∧
           Calendar.add_one_day d = Some d' ∧
           next_date fr = Calendar.strftime d').

(** ... and when the loop is left. *)
Definition at_exit (start : string) (fr : frame) (raised : option exn) : Prop :=
  match raised with
  | None => state fr = default start (last (walked fr))
  | Some (RequestException _ _) =>
      ∃ completed D,
        walked fr = completed ++ [D] ∧
        state fr = default start (last completed) ∧
        (completed = [] → D = start) ∧
        (completed ≠ [] →
         ∃ d d', Calendar.strptime (state fr) = Some d ∧
                 Calendar.add_one_day d = Some d' ∧
                 D = Calendar.strftime d')
  | Some _ => True
  end.


Definition date_lt (a b : Calendar.date) : Prop := Calendar.date_ltb a b = true.




(** The record [rec] is made of an answer of the provider for the date
    [s]: some call, asked for a configured exchange on the date [s], was
    answered with a status that is no error and a document bearing the
    date [s]; [rec] is that document as received when the run is
    schemaless, and the flattening of its three members when it is not. *)
Definition record_for (E : env) (cfg : config) (s : string) (rec : record) : Prop :=
  ∃ n ex resp doc,
    ex ∈ exchanges cfg ∧
    http_get E n (mkrequest (base_url s) (ex_base ex) (symbols ex) (apikey cfg))
      = Replied resp ∧
    ¬ failing resp ∧
    json resp = Some doc ∧
    doc_date doc = Some s ∧
    if schemaless cfg then rec = Raw doc
    else ∃ b rs d, doc_base doc = Some b ∧ doc_rates doc = Some rs ∧
                   Calendar.strptime s = Some d ∧
                   rec = Flat (flattened_of (mkpayload b s rs) d).

(** A schema declares a record: every rate code of a raw payload is a
    property; every key of a flattened payload is a property, the base
    currency, which the flattening adds, possibly excepted. *)
Definition declares (sch : schema_t) (rec : record) : Prop :=
  match rec with
  | Raw pl =>
      ∀ rs k, doc_rates pl = Some rs → is_Some (rs !! k) →
              is_Some (properties sch !! k)
  | Flat d =>
      ∃ pl dt, d = flattened_of pl dt ∧
        ∀ k, is_Some (d !! k) → k = base pl ∨ is_Some (properties sch !! k)
  end.

(** The schema last written in [ms], or [latest] when there is none. *)
Definition latest_schema (latest : option schema_t) (ms : list message)
  : option schema_t :=
  foldl (λ acc m, match m with SCHEMA _ s _ => Some s | _ => acc end) latest ms.

(** Every record of [ms] comes after a schema that declares it, [latest]
    being the schema written before [ms]. *)
Fixpoint well_declared (latest : option schema_t) (ms : list message) : Prop :=
  match ms with
  | [] => True
  | SCHEMA _ s _ :: rest => well_declared (Some s) rest
  | RECORD _ rec :: rest =>
      (∃ sch, latest = Some sch ∧ declares sch rec) ∧ well_declared latest rest
  | STATE _ :: rest => well_declared latest rest
  end.

(** The fetch of an iteration. *)
Definition fetch_of (E : env) (cfg : config) (next : string) (ex : exchange)
    (p : proc) : fetched :=
  request E (calls p)
    (mkrequest (base_url next) (ex_base ex) (symbols ex) (apikey cfg)).

(** The process after a fetch that left schema and output alone. *)
Definition held (f : fetched) (p : proc) : proc :=
  mkproc (cur_schema p) (out p) (f_calls f) (slept p ++ f_slept f).

(** The process after a fetch whose rates [rs] were added to the schema:
    the schema is written when it differs from [prev], then come [recs]. *)
Definition evolved (f : fetched) (prev : option schema_t) (rs : dict)
    (recs : list message) (p : proc) : proc :=
  let sch := update_schema (cur_schema p) rs in
  mkproc sch
    (out p ++ (if decide (Some sch ≠ prev)
               then [SCHEMA "exchange_rate" sch "date"] else []) ++ recs)
    (f_calls f) (slept p ++ f_slept f).

(** The ways through the body of the [for]: where it stops and what it
    leaves. *)
Inductive iteration (E : env) (cfg : config) (next : string)
    (prev : option schema_t) (ex : exchange) (p : proc)
  : proc → option exn → Prop :=
| it_fetch_raises e :
    f_result (fetch_of E cfg next ex p) = Raise e →
    iteration E cfg next prev ex p (held (fetch_of E cfg next ex p) p) (Some e)
| it_not_json resp :
    f_result (fetch_of E cfg next ex p) = Ok resp →
    json resp = None →
    iteration E cfg next prev ex p (held (fetch_of E cfg next ex p) p)
      (Some (RequestException None None))
| it_no_rates resp doc :
    f_result (fetch_of E cfg next ex p) = Ok resp →
    json resp = Some doc → doc_rates doc = None →
    iteration E cfg next prev ex p (held (fetch_of E cfg next ex p) p) (Some KeyError)
| it_no_date resp doc rs :
    f_result (fetch_of E cfg next ex p) = Ok resp →
    json resp = Some doc → doc_rates doc = Some rs → doc_date doc = None →
    iteration E cfg next prev ex p
      (evolved (fetch_of E cfg next ex p) prev rs [] p) (Some KeyError)
| it_other_date resp doc rs dt :
    f_result (fetch_of E cfg next ex p) = Ok resp →
    json resp = Some doc → doc_rates doc = Some rs → doc_date doc = Some dt →
    dt ≠ next →
    iteration E cfg next prev ex p (evolved (fetch_of E cfg next ex p) prev rs [] p) None
| it_raw resp doc rs :
    f_result (fetch_of E cfg next ex p) = Ok resp →
    json resp = Some doc → doc_rates doc = Some rs → doc_date doc = Some next →
    schemaless cfg = true →
    iteration E cfg next prev ex p
      (evolved (fetch_of E cfg next ex p) prev rs [RECORD "exchange_rate" (Raw doc)] p)
      None
| it_no_base resp doc rs :
    f_result (fetch_of E cfg next ex p) = Ok resp →
    json resp = Some doc → doc_rates doc = Some rs → doc_date doc = Some next →
    schemaless cfg = false → doc_base doc = None →
    iteration E cfg next prev ex p
      (evolved (fetch_of E cfg next ex p) prev rs [] p) (Some KeyError)
| it_flat resp doc rs b d :
    f_result (fetch_of E cfg next ex p) = Ok resp →
    json resp = Some doc → doc_rates doc = Some rs → doc_date doc = Some next →
    schemaless cfg = false → doc_base doc = Some b →
    Calendar.strptime next = Some d →
    iteration E cfg next prev ex p
      (evolved (fetch_of E cfg next ex p) prev rs
         [RECORD "exchange_rate" (Flat (flattened_of (mkpayload b next rs) d))] p)
      None
| it_bad_date resp doc rs b :
    f_result (fetch_of E cfg next ex p) = Ok resp →
    json resp = Some doc → doc_rates doc = Some rs → doc_date doc = Some next →
    schemaless cfg = false → doc_base doc = Some b →
    Calendar.strptime next = None →
    iteration E cfg next prev ex p
      (evolved (fetch_of E cfg next ex p) prev rs [] p) (Some ValueError).


(** Every call is answered, and never with an error status. *)
Definition never_fails (E : env) : Prop :=
  ∀ n a, ∃ r, http_get E n a = Replied r ∧ ¬ failing r.

(** Every call is answered with a status that is no error and a document
    that has its three members. *)
Definition always_serves (E : env) : Prop :=
  ∀ n a, ∃ r b dt rs,
    http_get E n a = Replied r ∧ ¬ failing r ∧
    json r = Some (mkdocument (Some b) (Some dt) (Some rs)).

End Notions.

(** * Properties *)

(** ** The calendar *)

Module CalendarFacts.
Import Calendar.

Ltac ten_cases n :=
  let H := fresh in
  assert (H : n = 0 ∨ n = 1 ∨ n = 2 ∨ n = 3 ∨ n = 4 ∨ n = 5 ∨ n = 6 ∨
              n = 7 ∨ n = 8 ∨ n = 9) by lia;
  repeat (destruct H as [-> | H]); [.. | subst n].

Lemma digit_val_digit n : 0 <= n <= 9 → digit_val (digit n) = Some n.
Proof. intros Hn. ten_cases n; reflexivity. Qed.

Lemma digit_not_dash n : 0 <= n <= 9 → Ascii.eqb (digit n) "-" = false.
Proof. intros Hn. ten_cases n; reflexivity. Qed.

Lemma digit_not_blank n : 0 <= n <= 9 → Ascii.eqb (digit n) " " = false.
Proof. intros Hn. ten_cases n; reflexivity. Qed.

Lemma num2_digits n :
  0 <= n <= 99 → num2 (digit (n / 10)) (digit (n mod 10)) = Some n.
Proof.
  intros Hn. unfold num2.
  rewrite !digit_val_digit by (Z.div_mod_to_equations; lia). cbn.
  f_equal. Z.div_mod_to_equations; lia.
Qed.

Lemma num4_digits n :
  0 <= n <= 9999 →
  num4 (digit (n / 1000)) (digit (n / 100 mod 10))
       (digit (n mod 100 / 10)) (digit (n mod 100 mod 10)) = Some n.
Proof.
  intros Hn. unfold num4, num2.
  rewrite !digit_val_digit by (Z.div_mod_to_equations; lia). cbn.
  f_equal. Z.div_mod_to_equations; lia.
Qed.

Lemma days_in_month_bounds y m : 28 <= days_in_month y m <= 31.
Proof. unfold days_in_month. repeat case_match; lia. Qed.

Lemma valid_date_spec d :
  valid_date d = true ↔
  MINYEAR <= year d <= MAXYEAR ∧ 1 <= month d <= 12 ∧
  1 <= day d <= days_in_month (year d) (month d).
Proof. unfold valid_date. rewrite !andb_true_iff, !Z.leb_le. lia. Qed.

Lemma digit_val_dash : digit_val "-" = None.
Proof. reflexivity. Qed.

(** Formatting a date of a year with four digits and parsing it back gives
    the date. *)
Lemma strptime_strftime d :
  valid_date d = true → 1000 <= year d → strptime (strftime d) = Some d.
Proof.
  intros Hv Hy4. pose proof Hv as Hb. apply valid_date_spec in Hb.
  destruct Hb as (Hy & Hm & Hd).
  pose proof (days_in_month_bounds (year d) (month d)) as Hdim.
  unfold MINYEAR, MAXYEAR in Hy.
  assert (decimal_year (year d) = pad4 (year d)) as Hdec.
  { unfold decimal_year.
    assert ((year d <? 10) = false) as -> by lia.
    assert ((year d <? 100) = false) as -> by lia.
    by assert ((year d <? 1000) = false) as -> by lia. }
  unfold strftime. rewrite Hdec.
  change (pad4 (year d) +:+ "-" +:+ pad2 (month d) +:+ "-" +:+ pad2 (day d)) with
    (String (digit (year d / 1000)) (String (digit (year d / 100 mod 10))
      (String (digit (year d mod 100 / 10)) (String (digit (year d mod 100 mod 10))
        (String "-" (String (digit (month d / 10)) (String (digit (month d mod 10))
          (String "-" (pad2 (day d)))))))))).
  unfold strptime. rewrite Ascii.eqb_refl, num4_digits by lia. cbn [mbind option_bind].
  cbn [split_dash].
  rewrite !digit_not_dash by (Z.div_mod_to_equations; lia).
  rewrite Ascii.eqb_refl. cbn [mbind option_bind parse_month].
  rewrite num2_digits by lia. cbn [mbind option_bind].
  assert ((1 <=? month d) && (month d <=? 12) = true) as -> by lia.
  unfold pad2, parse_day.
  rewrite digit_not_blank by (Z.div_mod_to_equations; lia).
  rewrite num2_digits by lia. cbn [mbind option_bind].
  assert ((1 <=? day d) && (day d <=? 31) = true) as -> by lia.
  destruct d as [y m dd]. cbn [year month day mbind option_bind] in *.
  by rewrite Hv.
Qed.

(** Below the year 1000 what [strftime] writes does not parse: [%Y] of
    [strptime] wants four digits. *)
Lemma strptime_strftime_short d :
  valid_date d = true → year d < 1000 → strptime (strftime d) = None.
Proof.
  intros Hv Hy3. apply valid_date_spec in Hv. destruct Hv as (Hy & Hm & Hd).
  unfold MINYEAR, MAXYEAR in Hy. unfold strftime, decimal_year.
  destruct (year d <? 10) eqn:H1.
  - apply Z.ltb_lt in H1.
    change (String (digit (year d)) "" +:+ "-" +:+ pad2 (month d) +:+ "-" +:+ pad2 (day d))
      with (String (digit (year d)) (String "-" (String (digit (month d / 10))
             (String (digit (month d mod 10)) (String "-" (pad2 (day d))))))).
    unfold strptime. rewrite Ascii.eqb_refl. unfold num4, num2.
    rewrite (digit_val_digit (year d)) by lia. cbn [mbind option_bind].
    by rewrite digit_val_dash.
  - apply Z.ltb_ge in H1. destruct (year d <? 100) eqn:H2.
    + apply Z.ltb_lt in H2.
      change (pad2 (year d) +:+ "-" +:+ pad2 (month d) +:+ "-" +:+ pad2 (day d))
        with (String (digit (year d / 10)) (String (digit (year d mod 10))
               (String "-" (String (digit (month d / 10))
                 (String (digit (month d mod 10)) (String "-" (pad2 (day d)))))))).
      unfold strptime. by rewrite digit_not_dash by (Z.div_mod_to_equations; lia).
    + apply Z.ltb_ge in H2. assert ((year d <? 1000) = true) as -> by lia.
      change (String (digit (year d / 100)) (pad2 (year d mod 100)) +:+ "-"
                +:+ pad2 (month d) +:+ "-" +:+ pad2 (day d))
        with (String (digit (year d / 100)) (String (digit (year d mod 100 / 10))
               (String (digit (year d mod 100 mod 10))
                 (String "-" (String (digit (month d / 10))
                   (String (digit (month d mod 10)) (String "-" (pad2 (day d))))))))).
      unfold strptime. by rewrite digit_not_dash by (Z.div_mod_to_equations; lia).
Qed.

(** So what [strftime] writes parses to the date it was written from, if
    it parses at all. *)
Lemma strptime_strftime_inv d d0 :
  valid_date d = true → strptime (strftime d) = Some d0 → d0 = d.
Proof.
  intros Hv H. destruct (decide (1000 <= year d)) as [Hy | Hy].
  - rewrite strptime_strftime in H by done. congruence.
  - rewrite strptime_strftime_short in H by (done || lia). done.
Qed.

(** Whatever parses is a date of the calendar. *)
Lemma strptime_valid s d : strptime s = Some d → valid_date d = true.
Proof.
  unfold strptime. intros H.
  repeat (case_match; simplify_option_eq; try done).
Qed.

(** *** Order *)

Lemma date_ltb_spec a b :
  date_ltb a b = true ↔
  year a < year b ∨
  (year a = year b ∧ (month a < month b ∨ (month a = month b ∧ day a < day b))).
Proof.
  unfold date_ltb.
  rewrite !orb_true_iff, !andb_true_iff, !orb_true_iff, !andb_true_iff,
    !Z.ltb_lt, !Z.eqb_eq. tauto.
Qed.

Lemma date_leb_spec a b :
  date_leb a b = true ↔
  year a < year b ∨
  (year a = year b ∧ (month a < month b ∨ (month a = month b ∧ day a <= day b))).
Proof.
  unfold date_leb. rewrite negb_true_iff, <- not_true_iff_false, date_ltb_spec. lia.
Qed.

Lemma date_leb_refl a : date_leb a a = true.
Proof. apply date_leb_spec. lia. Qed.

Lemma date_ltb_leb a b : date_ltb a b = true → date_leb a b = true.
Proof. rewrite date_ltb_spec, date_leb_spec. lia. Qed.

Lemma date_leb_ltb_or_eq a b :
  date_leb a b = true ↔ date_ltb a b = true ∨ a = b.
Proof.
  rewrite date_ltb_spec, date_leb_spec. split.
  - intros H. destruct (decide (a = b)) as [|Hne]; [by right | left].
    destruct a as [y m d], b as [y' m' d']; cbn in *.
    assert (¬ (y = y' ∧ m = m' ∧ d = d')) by (intros (-> & -> & ->); done). lia.
  - intros [H | ->]; lia.
Qed.

Lemma date_ltb_irrefl a : date_ltb a a = false.
Proof. apply not_true_iff_false. rewrite date_ltb_spec. lia. Qed.

Lemma date_ltb_trans a b c :
  date_ltb a b = true → date_ltb b c = true → date_ltb a c = true.
Proof. rewrite !date_ltb_spec. lia. Qed.

Lemma date_leb_ltb_trans a b c :
  date_leb a b = true → date_ltb b c = true → date_ltb a c = true.
Proof. rewrite !date_ltb_spec, date_leb_spec. lia. Qed.

Lemma date_ltb_leb_trans a b c :
  date_ltb a b = true → date_leb b c = true → date_ltb a c = true.
Proof. rewrite !date_ltb_spec, date_leb_spec. lia. Qed.

Lemma date_ltb_not_leb a b : date_ltb a b = true → date_leb b a = false.
Proof. unfold date_leb. by intros ->. Qed.

(** Midnight of [d] is not after [now] exactly when [d] is not after the
    day of [now]. *)
Lemma midnight_leb d now :
  datetime_leb (at_midnight d) now = date_leb d (dt_date now).
Proof.
  unfold datetime_leb, at_midnight; cbn.
  destruct (date_leb d (dt_date now)) eqn:Hle.
  - apply date_leb_ltb_or_eq in Hle as [-> | ->]; [done |].
    rewrite date_ltb_irrefl, bool_decide_eq_true_2 by done. cbn. apply N.leb_le. lia.
  - apply orb_false_iff. split.
    + destruct (date_ltb d (dt_date now)) eqn:Hlt; [| done].
      apply date_ltb_leb in Hlt. congruence.
    + apply andb_false_iff. left. apply bool_decide_eq_false. intros ->.
      rewrite date_leb_refl in Hle. done.
Qed.

(** *** The next day *)

Lemma add_one_day_valid d d' :
  valid_date d = true → add_one_day d = Some d' → valid_date d' = true.
Proof.
  rewrite !valid_date_spec. unfold add_one_day, MINYEAR, MAXYEAR.
  intros (Hy & Hm & Hd) H.
  repeat case_match; simplify_eq; cbn;
    rewrite ?Z.ltb_lt, ?Z.ltb_ge in *;
    pose proof (days_in_month_bounds (year d) (month d + 1));
    pose proof (days_in_month_bounds (year d + 1) 1); lia.
Qed.

Lemma add_one_day_ltb d d' :
  valid_date d = true → add_one_day d = Some d' → date_ltb d d' = true.
Proof.
  rewrite valid_date_spec, date_ltb_spec. unfold add_one_day.
  intros (Hy & Hm & Hd) H.
  repeat case_match; simplify_eq; cbn; rewrite ?Z.ltb_lt, ?Z.ltb_ge in *; lia.
Qed.

Lemma add_one_day_year d d' : add_one_day d = Some d' → year d <= year d'.
Proof.
  unfold add_one_day. intros H. repeat case_match; simplify_eq; cbn; lia.
Qed.

(** No date of the calendar lies strictly between a day and the next. *)
Lemma add_one_day_least d d' x :
  valid_date d = true → valid_date x = true →
  add_one_day d = Some d' → date_ltb d x = true → date_leb d' x = true.
Proof.
  rewrite !valid_date_spec, date_ltb_spec, date_leb_spec. unfold add_one_day.
  intros (Hy & Hm & Hd) (Hy' & Hm' & Hd') H Hlt.
  destruct d as [y m dd], x as [y' m' dd']; cbn in *.
  destruct (decide (y = y')) as [<- |]; [| repeat case_match; simplify_eq; cbn; lia].
  destruct (decide (m = m')) as [<- |];
    repeat case_match; simplify_eq; cbn; rewrite ?Z.ltb_lt, ?Z.ltb_ge in *; lia.
Qed.

(** The addition overflows on the last day of the calendar only. *)
Lemma add_one_day_None d :
  valid_date d = true → add_one_day d = None → d = max_date.
Proof.
  rewrite valid_date_spec. unfold add_one_day, MINYEAR, MAXYEAR, max_date.
  intros (Hy & Hm & Hd) H. destruct d as [y m dd]; cbn in *.
  repeat case_match; simplify_eq. rewrite ?Z.ltb_lt, ?Z.ltb_ge in *.
  assert (y = 9999) as -> by lia. assert (m = 12) as -> by lia.
  change (days_in_month 9999 12) with 31 in *. f_equal; lia.
Qed.

Lemma max_date_greatest x : valid_date x = true → date_leb x max_date = true.
Proof.
  rewrite valid_date_spec, date_leb_spec. unfold MINYEAR, MAXYEAR. cbn.
  intros (Hy & Hm & Hd).
  pose proof (days_in_month_bounds (year x) (month x)). lia.
Qed.

Lemma rank_add_one_day d d' :
  valid_date d = true → add_one_day d = Some d' → rank d < rank d'.
Proof.
  rewrite valid_date_spec. unfold add_one_day, rank.
  intros (Hy & Hm & Hd) H.
  pose proof (days_in_month_bounds (year d) (month d)).
  repeat case_match; simplify_eq; cbn; rewrite ?Z.ltb_lt, ?Z.ltb_ge in *; lia.
Qed.

Lemma rank_bounds d : valid_date d = true → 0 <= rank d <= rank max_date.
Proof.
  rewrite valid_date_spec. unfold rank, MINYEAR, MAXYEAR. cbn.
  intros (Hy & Hm & Hd).
  pose proof (days_in_month_bounds (year d) (month d)). lia.
Qed.

End CalendarFacts.

(** ** The fetcher *)

Module FetchFacts.
Import Tap Notions.

Section Fetch.

Context (E : env).

Lemma request_once_Ok n a r :
  request_once E n a = Ok r ↔ http_get E n a = Replied r ∧ ¬ failing r.
Proof.
  unfold request_once, failing. destruct (http_get E n a) as [| r0]; [split; [done | by intros [? _]] |].
  destruct ((400 <=? status_code r0) && (status_code r0 <? 600)) eqn:Hs.
  - split; [done |]. intros [[= ->] Hn]. lia.
  - split; [intros [= ->] | intros [[= ->] _]]; [| done]. split; [done | lia].
Qed.

Lemma request_once_failing n a r :
  http_get E n a = Replied r → failing r →
  request_once E n a = Raise (RequestException (Some (url a)) (Some r)).
Proof.
  unfold request_once, failing. intros -> Hs.
  by assert ((400 <=? status_code r) && (status_code r <? 600) = true) as -> by lia.
Qed.

Lemma request_once_connection n a :
  http_get E n a = ConnectionFailed →
  request_once E n a = Raise (RequestException (Some (url a)) None).
Proof. unfold request_once. by intros ->. Qed.

Lemma giveup_retryable r : retryable r → giveup (Some r) = Ok false.
Proof.
  unfold giveup, retryable. intros H. do 2 f_equal.
  apply negb_false_iff, orb_true_iff. lia.
Qed.

Lemma giveup_other r : ¬ retryable r → giveup (Some r) = Ok true.
Proof.
  unfold giveup, retryable. intros H. do 2 f_equal.
  apply negb_true_iff, orb_false_iff. lia.
Qed.

(** A first answer that is not an error ends the call at once. *)
Lemma on_exception_success more n sl a r :
  http_get E n a = Replied r → ¬ failing r →
  on_exception E more n sl a = mkfetched (Ok r) (S n) sl.
Proof.
  intros Hg Hs. assert (request_once E n a = Ok r) as Ho by by apply request_once_Ok.
  destruct more; cbn; by rewrite Ho.
Qed.

(** An error status outside of 429 and 5xx is raised on the spot, whatever
    is left of the budget. *)
Lemma on_exception_giveup more n sl a r :
  http_get E n a = Replied r → failing r → ¬ retryable r →
  on_exception E more n sl a =
    mkfetched (Raise (RequestException (Some (url a)) (Some r))) (S n) sl.
Proof.
  intros Hg Hs Hr. pose proof (request_once_failing _ _ _ Hg Hs) as Ho.
  destruct more; cbn; rewrite Ho, (giveup_other _ Hr); done.
Qed.

(** A retryable error with tries left: one wait of [interval] plus jitter,
    then the next try. *)
Lemma on_exception_retry more n sl a r :
  http_get E n a = Replied r → failing r → retryable r →
  on_exception E (S more) n sl a =
    on_exception E more (S n) (sl ++ [(interval + random E n)%float]) a.
Proof.
  intros Hg Hs Hr. pose proof (request_once_failing _ _ _ Hg Hs) as Ho.
  cbn. rewrite Ho, (giveup_retryable _ Hr). done.
Qed.

(** A retryable error on the last try is raised. *)
Lemma on_exception_last n sl a r :
  http_get E n a = Replied r → failing r →
  on_exception E 0 n sl a =
    mkfetched (Raise (RequestException (Some (url a)) (Some r))) (S n) sl.
Proof.
  intros Hg Hs. pose proof (request_once_failing _ _ _ Hg Hs) as Ho.
  cbn. rewrite Ho. unfold giveup. done.
Qed.

(** No answer at all: [giveup] fails on the missing response, and its
    [AttributeError] replaces the connection error; nothing is retried. *)
Lemma on_exception_connection more n sl a :
  http_get E n a = ConnectionFailed →
  on_exception E more n sl a = mkfetched (Raise AttributeError) (S n) sl.
Proof.
  intros Hg. pose proof (request_once_connection _ _ Hg) as Ho.
  destruct more; cbn; by rewrite Ho.
Qed.

(** [k] retryable errors in a row, within the budget, cost [k] waits. *)
Lemma on_exception_retries k more n sl a :
  (∀ j, (n ≤ j < n + k)%nat →
        ∃ r, http_get E j a = Replied r ∧ failing r ∧ retryable r) →
  on_exception E (k + more) n sl a =
    on_exception E more (n + k) (sl ++ waits E n k) a.
Proof.
  revert n sl. induction k as [| k IH]; intros n sl H.
  - cbn. by rewrite Nat.add_0_r, app_nil_r.
  - destruct (H n) as (r & Hg & Hs & Hr); [lia |].
    change (S k + more)%nat with (S (k + more)).
    rewrite (on_exception_retry _ _ _ _ _ Hg Hs Hr), IH.
    + unfold waits. cbn [seq fmap list_fmap]. rewrite <- app_assoc.
      by replace (S n + k)%nat with (n + S k)%nat by lia.
    + intros j Hj. apply H. lia.
Qed.

(** What [request] can raise: the error of a failing answer, with request
    and response set, or the [AttributeError] of [giveup]. *)
Lemma on_exception_raises more n sl a e :
  f_result (on_exception E more n sl a) = Raise e →
  e = AttributeError ∨
  ∃ r, e = RequestException (Some (url a)) (Some r) ∧ failing r.
Proof.
  revert n sl. induction more as [| more IH]; intros n sl; cbn;
    destruct (http_get E n a) as [| r] eqn:Hg.
  - rewrite (request_once_connection _ _ Hg). cbn. intros [= <-]. by left.
  - destruct (decide (failing r)) as [Hs | Hs].
    + rewrite (request_once_failing _ _ _ Hg Hs). cbn. intros [= <-]. right. eauto.
    + assert (request_once E n a = Ok r) as -> by by apply request_once_Ok. done.
  - rewrite (request_once_connection _ _ Hg). cbn. intros [= <-]. by left.
  - destruct (decide (failing r)) as [Hs | Hs].
    + rewrite (request_once_failing _ _ _ Hg Hs). cbn.
      destruct (negb _); [intros [= <-]; right; eauto | apply IH].
    + assert (request_once E n a = Ok r) as -> by by apply request_once_Ok. done.
Qed.

(** When every call is answered without an error status, a call of
    [request] is one call of the provider. *)
Lemma request_never_fails n a :
  never_fails E → ∃ r, request E n a = mkfetched (Ok r) (S n) [].
Proof.
  intros H. destruct (H n a) as (r & Hg & Hs). exists r.
  by apply on_exception_success.
Qed.

(** *** The retry policy on HTTP statuses *)

(** Five retryable errors in a row: five calls, four waits, and the last
    error is raised. *)
Lemma request_exhausts n a :
  (∀ j, (n ≤ j < n + 5)%nat →
        ∃ r, http_get E j a = Replied r ∧ failing r ∧ retryable r) →
  ∃ r, http_get E (n + 4) a = Replied r ∧
       request E n a =
         mkfetched (Raise (RequestException (Some (url a)) (Some r))) (n + 5)
           (waits E n 4).
Proof.
  intros H. destruct (H (n + 4)%nat) as (r & Hg & Hs & _); [lia |].
  exists r. split; [done |]. unfold request.
  change (max_tries - 1)%nat with (4 + 0)%nat.
  rewrite on_exception_retries by (intros j Hj; apply H; lia).
  rewrite (on_exception_last _ _ _ _ Hg Hs).
  by replace (S (n + 4)) with (n + 5)%nat by lia.
Qed.

(** [k] retryable errors, at most four, then an answer: [k] waits. *)
Lemma request_recovers k n a r :
  (k ≤ 4)%nat →
  (∀ j, (n ≤ j < n + k)%nat →
        ∃ r', http_get E j a = Replied r' ∧ failing r' ∧ retryable r') →
  http_get E (n + k) a = Replied r → ¬ failing r →
  request E n a = mkfetched (Ok r) (S (n + k)) (waits E n k).
Proof.
  intros Hk H Hg Hs. unfold request.
  replace (max_tries - 1)%nat with (k + (4 - k))%nat by (unfold max_tries; lia).
  rewrite on_exception_retries by done.
  by rewrite (on_exception_success _ _ _ _ _ Hg Hs).
Qed.

(** Any other error status: one call, no wait. *)
Lemma request_gives_up n a r :
  http_get E n a = Replied r → failing r → ¬ retryable r →
  request E n a =
    mkfetched (Raise (RequestException (Some (url a)) (Some r))) (S n) [].
Proof. apply on_exception_giveup. Qed.

(** No answer: one call, no wait, and the error of [giveup]. *)
Lemma request_connection_failed n a :
  http_get E n a = ConnectionFailed →
  request E n a = mkfetched (Raise AttributeError) (S n) [].
Proof. apply on_exception_connection. Qed.

End Fetch.

(** C6, the code at a failing input.  The first call of a fetch gets no
    answer: [giveup] reads the text of a response that does not exist, the
    fetch ends after this one call without a wait, and the run ends on the
    [AttributeError], which [do_sync] does not catch, with no state written. *)
Theorem network_failure_not_retried :
  request Scenarios.unreachable 0
    (mkrequest (base_url "2024-01-01") "USD" ["EUR"; "GBP"] "secret")
    = mkfetched (Raise AttributeError) 1 [] ∧
  do_sync Scenarios.unreachable 5 (Scenarios.typed [Scenarios.usd]) "2024-01-01"
    = Some Scenarios.unreachable_run.
Proof. split; vm_compute; reflexivity. Qed.

End FetchFacts.

(** ** The schema evolver *)

Module SchemaFacts.
Import Tap Notions.

Global Instance extends_refl : Reflexive extends.
Proof. intros a. by split. Qed.

Global Instance extends_trans : Transitive extends.
Proof.
  intros a b c [Hab Hab'] [Hbc Hbc']. split; [congruence | by etrans].
Qed.

Lemma observe_rate_extends sch rate : extends sch (observe_rate sch rate).
Proof.
  unfold observe_rate. destruct (properties sch !! rate) eqn:Hl; [done |].
  split; [done |]. cbn. by apply insert_subseteq.
Qed.

Lemma foldl_observe_rate_extends l sch : extends sch (foldl observe_rate sch l).
Proof.
  revert sch. induction l as [| k l IH]; intros sch; cbn; [done |].
  etrans; [apply observe_rate_extends | apply IH].
Qed.

(** One observation only adds to the schema. *)
Lemma update_schema_extends sch rs : extends sch (update_schema sch rs).
Proof. apply foldl_observe_rate_extends. Qed.

Lemma decide_elem_of_cons {A B} `{EqDecision A} (k r : A) (l : list A) (a b : B) :
  (if decide (k ∈ r :: l) then a else b) =
  (if decide (k = r) then a else if decide (k ∈ l) then a else b).
Proof.
  destruct (decide (k = r)) as [-> | Hne].
  - rewrite decide_True; [done | by left].
  - destruct (decide (k ∈ l)) as [Hin | Hin].
    + rewrite decide_True; [done | by right].
    + rewrite decide_False; [done |]. intros [? | ?]%elem_of_cons; done.
Qed.

Lemma foldl_observe_rate_lookup l sch k :
  properties (foldl observe_rate sch l) !! k =
    match properties sch !! k with
    | Some v => Some v
    | None => if decide (k ∈ l) then Some nullable_number else None
    end.
Proof.
  revert sch. induction l as [| r l IH]; intros sch; cbn [foldl].
  - destruct (properties sch !! k); [done |].
    rewrite decide_False; [done | apply not_elem_of_nil].
  - rewrite IH, decide_elem_of_cons. unfold observe_rate.
    destruct (properties sch !! r) eqn:Hr.
    + destruct (properties sch !! k) eqn:Hk; [done |].
      destruct (decide (k = r)) as [-> | Hne]; [congruence | done].
    + cbn. destruct (decide (k = r)) as [-> | Hne].
      * by rewrite lookup_insert_eq, Hr.
      * by rewrite lookup_insert_ne by done.
Qed.

(** The properties after an observation: the old ones as they were, and a
    nullable number for every code that had none. *)
Lemma update_schema_lookup sch (rs : dict) k :
  properties (update_schema sch rs) !! k =
    match properties sch !! k with
    | Some v => Some v
    | None => match rs !! k with Some _ => Some nullable_number | None => None end
    end.
Proof.
  unfold update_schema. rewrite foldl_observe_rate_lookup.
  destruct (properties sch !! k); [done |].
  destruct (rs !! k) eqn:Hk.
  - rewrite decide_True; [done |].
    apply list_elem_of_fmap. exists (k, v). split; [done |].
    by apply elem_of_map_to_list.
  - rewrite decide_False; [done |].
    intros ([k' v] & -> & Hin)%list_elem_of_fmap.
    apply elem_of_map_to_list in Hin. cbn in Hk. congruence.
Qed.

Lemma update_schema_type sch rs : s_type (update_schema sch rs) = s_type sch.
Proof. symmetry. apply update_schema_extends. Qed.

Lemma schema_eq a b :
  s_type a = s_type b → properties a = properties b → a = b.
Proof. destruct a, b; cbn; congruence. Qed.

(** A payload with no new code leaves the schema as it is. *)
Lemma update_schema_known sch (rs : dict) :
  (∀ k, is_Some (rs !! k) → is_Some (properties sch !! k)) →
  update_schema sch rs = sch.
Proof.
  intros H. apply schema_eq; [apply update_schema_type |].
  apply map_eq. intros k. rewrite update_schema_lookup.
  destruct (properties sch !! k) eqn:Hk; [done |].
  destruct (rs !! k) eqn:Hr; [| done].
  destruct (H k) as [? ?]; [by eexists | congruence].
Qed.

(** A payload with a new code changes it. *)
Lemma update_schema_new sch (rs : dict) k :
  is_Some (rs !! k) → properties sch !! k = None →
  properties (update_schema sch rs) !! k = Some nullable_number ∧
  update_schema sch rs ≠ sch.
Proof.
  intros [v Hv] Hk.
  assert (properties (update_schema sch rs) !! k = Some nullable_number) as Hl.
  { by rewrite update_schema_lookup, Hk, Hv. }
  split; [done |]. intros Heq. rewrite Heq in Hl. congruence.
Qed.

End SchemaFacts.

(** ** The replication loop *)

Module SyncFacts.
Import Tap Notions SchemaFacts FetchFacts CalendarFacts.

(** *** What an iteration writes *)

Ltac chain :=
  repeat match goal with
         | |- StronglySorted _ _ => constructor
         | |- Forall _ _ => constructor
         end;
  try done.

Lemma grows_refl p : grows p p.
Proof. exists []. rewrite app_nil_r. repeat split. cbn. chain. Qed.

Lemma grows_extends p p' : grows p p' → extends (cur_schema p) (cur_schema p').
Proof.
  intros (added & _ & _ & Hs). apply StronglySorted_cons in Hs as [Hall _].
  rewrite Forall_app, Forall_singleton in Hall. tauto.
Qed.

Lemma grows_trans p p' p'' : grows p p' → grows p' p'' → grows p p''.
Proof.
  intros (a1 & Ho1 & Hs1 & Hc1) (a2 & Ho2 & Hs2 & Hc2).
  exists (a1 ++ a2). split; [by rewrite Ho2, Ho1, app_assoc |].
  split; [unfold states_of in *; by rewrite omap_app, Hs1, Hs2 |].
  unfold schemas_of in *. rewrite omap_app, <- app_assoc.
  set (s1 := omap _ a1) in *. set (s2 := omap _ a2) in *.
  apply (StronglySorted_app_2 _ (cur_schema p :: s1) (s2 ++ [cur_schema p''])).
  - intros x1 x2 H1 H2. trans (cur_schema p').
    + apply (StronglySorted_app_1_elem_of _ (cur_schema p :: s1) [cur_schema p']);
        [done | done | by left].
    + apply StronglySorted_cons in Hc2 as [Hall _].
      rewrite Forall_forall in Hall. by apply Hall.
  - by apply (StronglySorted_app_1_l _ (cur_schema p :: s1) [cur_schema p']).
  - by apply StronglySorted_cons in Hc2 as [_ ?].
Qed.

(** A process that differs in its counters only. *)
Lemma grows_counters p n sl :
  grows p (mkproc (cur_schema p) (out p) n sl).
Proof.
  exists []. cbn. rewrite app_nil_r. repeat split. chain.
Qed.

Lemma grows_schema p sch ms rs n sl :
  extends (cur_schema p) sch →
  (ms = [] ∨ ms = [SCHEMA "exchange_rate" sch "date"]) →
  (rs = [] ∨ ∃ r, rs = [RECORD "exchange_rate" r]) →
  grows p (mkproc sch (out p ++ ms ++ rs) n sl).
Proof.
  intros He Hms Hrs. exists (ms ++ rs). split; [done |].
  unfold states_of, schemas_of. rewrite !omap_app.
  destruct Hms as [-> | ->], Hrs as [-> | [r ->]]; cbn; (split; [done |]); chain.
Qed.

Section Sync.

Context (E : env).

(** Flattening the fresh object of a decoded payload. *)
Lemma parse_response_fresh (pl : payload dict) :
  let '(r, σ) := fresh_payload pl in
  match Calendar.strptime (date pl) with
  | Some d => ∃ σ', parse_response r σ = (Ok 1%positive, σ') ∧
                    σ' 1%positive = flattened_of pl d
  | None => ∃ σ', parse_response r σ = (Raise ValueError, σ')
  end.
Proof.
  unfold fresh_payload, parse_response, flattened_of. cbn.
  destruct (Calendar.strptime (date pl)); eexists; [split |]; reflexivity.
Qed.

(** The body of the [for] goes one of the ways of [iteration]. *)
Lemma exchange_step_cases cfg next prev ex p p' oe :
  exchange_step E cfg next prev ex p = (p', oe) →
  iteration E cfg next prev ex p p' oe.
Proof.
  unfold exchange_step.
  change (request E (calls p) _) with (fetch_of E cfg next ex p).
  set (f := fetch_of E cfg next ex p).
  destruct (f_result f) as [resp | e] eqn:Hf;
    [| intros [= <- <-]; by apply it_fetch_raises].
  destruct (json resp) as [doc |] eqn:Hj;
    [| intros [= <- <-]; by eapply it_not_json].
  destruct (doc_rates doc) as [rs |] eqn:Hr;
    [| intros [= <- <-]; by eapply it_no_rates].
  cbn zeta. cbn [cur_schema out calls slept].
  assert (∀ recs,
            evolved f prev rs recs p =
            mkproc (update_schema (cur_schema p) rs)
              (out (if decide (Some (update_schema (cur_schema p) rs) ≠ prev)
                    then emit (SCHEMA "exchange_rate" (update_schema (cur_schema p) rs)
                                 "date")
                           (mkproc (update_schema (cur_schema p) rs) (out p)
                              (f_calls f) (slept p ++ f_slept f))
                    else mkproc (update_schema (cur_schema p) rs) (out p)
                           (f_calls f) (slept p ++ f_slept f)) ++ recs)
              (f_calls f) (slept p ++ f_slept f)) as Hev.
  { intros recs. unfold evolved, emit. cbn zeta.
    destruct (decide _); cbn; by rewrite <- ?app_assoc. }
  assert (∀ q : proc, q = mkproc (cur_schema q) (out q ++ []) (calls q) (slept q))
    as Hnil by (intros []; cbn; by rewrite app_nil_r).
  set (p3 := if decide _ then _ else _) in *.
  assert (cur_schema p3 = update_schema (cur_schema p) rs ∧
          calls p3 = f_calls f ∧ slept p3 = slept p ++ f_slept f) as (H1 & H2 & H3).
  { unfold p3. by destruct (decide _). }
  assert (p3 = evolved f prev rs [] p) as Hp3.
  { rewrite Hev, (Hnil p3). by rewrite H1, H2, H3. }
  assert (∀ m, emit m p3 = evolved f prev rs [m] p) as Hemit.
  { intros m. rewrite Hev. unfold emit. by rewrite H1, H2, H3. }
  destruct (doc_date doc) as [dt |] eqn:Hd;
    [| intros [= <- <-]; rewrite Hp3; by eapply it_no_date].
  destruct (decide (dt = next)) as [-> | Hne];
    [| intros [= <- <-]; rewrite Hp3; by eapply it_other_date].
  destruct (schemaless cfg) eqn:Hmode;
    [intros [= <- <-]; rewrite Hemit; by eapply it_raw |].
  destruct (doc_base doc) as [b |] eqn:Hb;
    [| intros [= <- <-]; rewrite Hp3; by eapply it_no_base].
  pose proof (parse_response_fresh (mkpayload b next rs)) as Hp.
  destruct (fresh_payload (mkpayload b next rs)) as [r σ]. cbn [date] in Hp.
  destruct (Calendar.strptime next) as [d |] eqn:Hparse.
  - destruct Hp as (σ' & -> & ->). intros [= <- <-]. rewrite Hemit.
    by eapply it_flat.
  - destruct Hp as (σ' & ->). intros [= <- <-]. rewrite Hp3. by eapply it_bad_date.
Qed.

Lemma grows_held f p : grows p (held f p).
Proof. apply grows_counters. Qed.

Lemma grows_evolved f prev rs recs p :
  (recs = [] ∨ ∃ r, recs = [RECORD "exchange_rate" r]) →
  grows p (evolved f prev rs recs p).
Proof.
  intros Hrecs. apply grows_schema; [apply update_schema_extends | | done].
  destruct (decide _); by (left + right).
Qed.

Lemma exchange_step_grows cfg next prev ex p p' oe :
  exchange_step E cfg next prev ex p = (p', oe) → grows p p'.
Proof.
  intros H%exchange_step_cases.
  destruct H; first [apply grows_held | apply grows_evolved; by (left + (right; eexists))].
Qed.

Lemma for_exchanges_grows cfg next prev exs p p' oe :
  for_exchanges E cfg next prev exs p = (p', oe) → grows p p'.
Proof.
  revert p. induction exs as [| ex exs IH]; intros p; cbn.
  - intros [= <- <-]. apply grows_refl.
  - destruct (exchange_step E cfg next prev ex p) as [p1 [e |]] eqn:Hs.
    + intros [= <- <-]. by eapply exchange_step_grows.
    + intros H. eapply grows_trans; [by eapply exchange_step_grows | by eapply IH].
Qed.

(** *** The loop: a proof rule, termination, fuel *)

Section LoopRule.

Context (cfg : config).
Context (P : nat → proc → frame → Prop) (Q : proc → frame → option exn → Prop).

Hypothesis unparsable : ∀ i p fr,
  P i p fr → Calendar.strptime (next_date fr) = None → Q p fr (Some ValueError).
Hypothesis finished : ∀ i p fr d,
  P i p fr → Calendar.strptime (next_date fr) = Some d →
  Calendar.date_leb d (Calendar.dt_date (utcnow E i)) = false → Q p fr None.
Hypothesis failed : ∀ i p fr d p' e,
  P i p fr → Calendar.strptime (next_date fr) = Some d →
  Calendar.date_leb d (Calendar.dt_date (utcnow E i)) = true →
  for_exchanges E cfg (next_date fr) (prev_schema fr) (exchanges cfg) p = (p', Some e) →
  Q p' (enter fr) (Some e).
Hypothesis overflow : ∀ i p fr d p',
  P i p fr → Calendar.strptime (next_date fr) = Some d →
  Calendar.date_leb d (Calendar.dt_date (utcnow E i)) = true →
  for_exchanges E cfg (next_date fr) (prev_schema fr) (exchanges cfg) p = (p', None) →
  Calendar.add_one_day d = None →
  Q p' (checkpoint (enter fr)) (Some OverflowError).
Hypothesis step : ∀ i p fr d p' d',
  P i p fr → Calendar.strptime (next_date fr) = Some d →
  Calendar.date_leb d (Calendar.dt_date (utcnow E i)) = true →
  for_exchanges E cfg (next_date fr) (prev_schema fr) (exchanges cfg) p = (p', None) →
  Calendar.add_one_day d = Some d' →
  P (S i) p' (advance d' (cur_schema p') (checkpoint (enter fr))).

Lemma while_loop_rule fuel i p fr p' fr' raised :
  P i p fr → while_loop E fuel cfg i p fr = Some (p', fr', raised) →
  Q p' fr' raised.
Proof using All.
  revert i p fr. induction fuel as [| fuel IH]; intros i p fr HP; cbn; [done |].
  destruct (Calendar.strptime (next_date fr)) as [d |] eqn:Hd.
  - rewrite midnight_leb.
    destruct (Calendar.date_leb d (Calendar.dt_date (utcnow E i))) eqn:Hle.
    + destruct (for_exchanges E cfg (next_date fr) (prev_schema fr) (exchanges cfg) p)
        as [p1 [e |]] eqn:Hb.
      * intros [= <- <- <-]. eauto.
      * destruct (Calendar.add_one_day d) as [d' |] eqn:Ha.
        -- apply IH. eauto.
        -- intros [= <- <- <-]. eauto.
    + intros [= <- <- <-]. eauto.
  - intros [= <- <- <-]. eauto.
Qed.

End LoopRule.

(** More fuel changes nothing once the loop has ended. *)
Lemma while_loop_fuel fuel fuel' cfg i p fr res :
  while_loop E fuel cfg i p fr = Some res → (fuel ≤ fuel')%nat →
  while_loop E fuel' cfg i p fr = Some res.
Proof.
  revert fuel' i p fr. induction fuel as [| fuel IH]; intros fuel' i p fr; [done |].
  destruct fuel' as [| fuel']; [lia |]. cbn. intros H Hle.
  repeat case_match; try done. apply IH; [done | lia].
Qed.

(** The loop ends: the dates it walks grow and the calendar is finite. *)
Lemma while_loop_terminates cfg i p fr :
  ∃ fuel res, while_loop E fuel cfg i p fr = Some res.
Proof.
  destruct (Calendar.strptime (next_date fr)) as [d |] eqn:Hd;
    [| exists 1%nat; eexists; cbn; by rewrite Hd].
  remember (Z.to_nat (Calendar.rank Calendar.max_date - Calendar.rank d)) as n eqn:Hn.
  revert i p fr d Hd Hn. induction (lt_wf n) as [n _ IH]. intros i p fr d Hd Hn.
  pose proof (strptime_valid _ _ Hd) as Hv.
  destruct (Calendar.datetime_leb (Calendar.at_midnight d) (utcnow E i)) eqn:Hle;
    [| exists 1%nat; eexists; cbn; by rewrite Hd, Hle].
  destruct (for_exchanges E cfg (next_date fr) (prev_schema fr) (exchanges cfg) p)
    as [p1 [e |]] eqn:Hb;
    [exists 1%nat; eexists; cbn; by rewrite Hd, Hle, Hb |].
  destruct (Calendar.add_one_day d) as [d' |] eqn:Ha;
    [| exists 1%nat; eexists; cbn; by rewrite Hd, Hle, Hb, Ha].
  pose proof (add_one_day_valid _ _ Hv Ha) as Hv'.
  pose proof (rank_add_one_day _ _ Hv Ha) as Hr.
  pose proof (rank_bounds _ Hv') as Hb'.
  destruct (Calendar.strptime (Calendar.strftime d')) as [d'' |] eqn:Hd'.
  - apply strptime_strftime_inv in Hd' as Heq; [| done]. subst d''.
    destruct (IH (Z.to_nat (Calendar.rank Calendar.max_date - Calendar.rank d')))
      with (i := S i) (p := p1)
           (fr := advance d' (cur_schema p1) (checkpoint (enter fr))) (d := d')
      as (fuel & res & Hres); [lia | done | done |].
    exists (S fuel), res. cbn. by rewrite Hd, Hle, Hb, Ha.
  - exists 2%nat. eexists. cbn. rewrite Hd, Hle, Hb, Ha. cbn. by rewrite Hd'.
Qed.

Lemma do_sync_from_fuel fuel fuel' cfg start p r :
  do_sync_from E fuel cfg start p = Some r → (fuel ≤ fuel')%nat →
  do_sync_from E fuel' cfg start p = Some r.
Proof.
  unfold do_sync_from. intros H Hle.
  destruct (while_loop E fuel _ _ _ _) as [res |] eqn:Hw; [| done].
  by rewrite (while_loop_fuel _ _ _ _ _ _ _ Hw Hle).
Qed.

(** [do_sync] always comes to an end, and the end does not depend on the
    fuel. *)
Lemma do_sync_terminates cfg start :
  ∃ fuel r, do_sync E fuel cfg start = Some r ∧
            ∀ fuel' r', do_sync E fuel' cfg start = Some r' → r' = r.
Proof.
  destruct (while_loop_terminates cfg 0 boot (mkframe start start None []))
    as (fuel & [[p fr] raised] & Hw).
  exists fuel, (finish p fr raised). unfold do_sync, do_sync_from.
  rewrite Hw. split; [done |]. intros fuel' r'.
  destruct (while_loop E fuel' _ _ _ _) as [[[p1 fr1] raised1] |] eqn:Hw'; [| done].
  cbn. intros [= <-].
  destruct (Nat.le_ge_cases fuel fuel') as [Hle | Hle].
  - rewrite (while_loop_fuel _ _ _ _ _ _ _ Hw Hle) in Hw'. by simplify_eq.
  - rewrite (while_loop_fuel _ _ _ _ _ _ _ Hw' Hle) in Hw. by simplify_eq.
Qed.

(** *** What holds of every run *)

Lemma while_loop_grows fuel cfg i p fr p' fr' raised :
  while_loop E fuel cfg i p fr = Some (p', fr', raised) → grows p p'.
Proof.
  apply (while_loop_rule cfg (λ _ q _, grows p q) (λ q _ _, grows p q)); try done.
  - intros ? ? ? ? ? ? Hg _ _ Hb. eapply grows_trans; [done | by eapply for_exchanges_grows].
  - intros ? ? ? ? ? Hg _ _ Hb _. eapply grows_trans; [done | by eapply for_exchanges_grows].
  - intros ? ? ? ? ? ? Hg _ _ Hb _. eapply grows_trans; [done | by eapply for_exchanges_grows].
  - apply grows_refl.
Qed.

Lemma while_loop_checkpoint fuel cfg start p p' fr' raised :
  while_loop E fuel cfg 0 p (mkframe start start None []) = Some (p', fr', raised) →
  at_exit start fr' raised.
Proof.
  apply (while_loop_rule cfg (λ _ _ fr, at_head start fr)
           (λ _ fr raised, at_exit start fr raised)).
  - done.
  - by intros i q fr d [Hs _] _ _.
  - intros i q fr d q' e (Hs & Hn & Hw) Hd _ _. destruct e; try done.
    exists (walked fr), (next_date fr). split; [done |]. split; [done |]. split; [done |].
    intros Hne. destruct (Hw Hne) as (d0 & d' & ? & ? & ?). eauto.
  - done.
  - intros i q fr d q' d' (Hs & Hn & Hw) Hd _ _ Ha. repeat split; cbn.
    + by rewrite last_snoc.
    + intros Hnil. by destruct (walked fr).
    + intros _. eauto.
  - repeat split; cbn; done.
Qed.

End Sync.

End SyncFacts.

(** ** Checkpoints *)

Module Checkpointing.
Import Tap Notions Scenarios SyncFacts CalendarFacts.

Lemma do_sync_inv E fuel cfg start r :
  do_sync E fuel cfg start = Some r →
  ∃ p fr raised,
    while_loop E fuel cfg 0 boot (mkframe start start None []) = Some (p, fr, raised) ∧
    r = finish p fr raised.
Proof.
  unfold do_sync, do_sync_from.
  destruct (while_loop E fuel _ _ _ _) as [[[p fr] raised] |]; [| done].
  cbn. intros [= <-]. eauto.
Qed.

(** Nothing but the end of [do_sync] writes a state message. *)
Lemma while_loop_no_state E fuel cfg i fr p fr' raised :
  while_loop E fuel cfg i boot fr = Some (p, fr', raised) → states_of (out p) = [].
Proof.
  intros (added & Ho & Hs & _)%while_loop_grows. by rewrite Ho.
Qed.

(** C2, as the code has it.  Every run of [do_sync] ends; it writes no STATE
    message while it walks, however many dates it completes; when it ends
    normally or on a fatal HTTP error it writes exactly one, as its last
    message, holding the checkpoint variable, which on the normal path is
    the last date walked (the start date when no date was walked); on any
    other exception it writes none. *)
Theorem state_written_once_at_end E cfg start :
  ∃ fuel r,
    do_sync E fuel cfg start = Some r ∧
    (∀ fuel' r', do_sync E fuel' cfg start = Some r' → r' = r) ∧
    match r_exit r with
    | ExitNormally =>
        (∃ before, out (r_proc r) = before ++ [STATE (state (r_frame r))] ∧
                   states_of before = []) ∧
        state (r_frame r) = default start (last (walked (r_frame r)))
    | SysExit _ =>
        ∃ before, out (r_proc r) = before ++ [STATE (state (r_frame r))] ∧
                  states_of before = []
    | Uncaught _ => states_of (out (r_proc r)) = []
    end.
Proof.
  destruct (do_sync_terminates E cfg start) as (fuel & r & Hr & Huniq).
  exists fuel, r. split; [done |]. split; [done |].
  destruct (do_sync_inv _ _ _ _ _ Hr) as (p & fr & raised & Hw & ->).
  pose proof (while_loop_no_state _ _ _ _ _ _ _ _ Hw) as Hs.
  pose proof (while_loop_checkpoint _ _ _ _ _ _ _ _ Hw) as Hc.
  unfold finish. destruct raised as [[[u |] [resp |] | | | |] |]; cbn; eauto.
Qed.

(** C2 as stated fails: two dates are completed and one STATE message is
    written, not three. *)
Lemma two_dates_one_state :
  do_sync two_days 5 (typed [usd]) "2024-01-01" = Some two_days_run ∧
  length (walked (r_frame two_days_run)) = 2%nat ∧
  states_of (out (r_proc two_days_run)) = ["2024-01-02"] ∧
  ¬ (length (walked (r_frame two_days_run)) + 1
     ≤ length (states_of (out (r_proc two_days_run))))%nat.
Proof. split; [vm_compute; reflexivity |]. cbn. repeat split. lia. Qed.

(** C3, as the code has it.  When a run ends on a fatal HTTP error met while
    date [D] was processed, the one STATE message it writes holds the last
    date completed before [D], which is the day before [D] and differs from
    it, when there is such a date; when [D] is the first date of the run
    the message holds the start date, which is [D]. *)
Theorem fatal_error_checkpoint E fuel cfg start r :
  do_sync E fuel cfg start = Some r →
  r_exit r = SysExit (-1) →
  ∃ completed D before,
    walked (r_frame r) = completed ++ [D] ∧
    out (r_proc r) = before ++ [STATE (default start (last completed))] ∧
    states_of before = [] ∧
    (completed = [] → D = start) ∧
    (completed ≠ [] →
     ∃ s d d', last completed = Some s ∧ Calendar.strptime s = Some d ∧
               Calendar.add_one_day d = Some d' ∧ D = Calendar.strftime d' ∧ s ≠ D).
Proof.
  intros Hr Hexit.
  destruct (do_sync_inv _ _ _ _ _ Hr) as (p & fr & raised & Hw & ->).
  pose proof (while_loop_no_state _ _ _ _ _ _ _ _ Hw) as Hs.
  pose proof (while_loop_checkpoint _ _ _ _ _ _ _ _ Hw) as Hc.
  unfold finish in *.
  destruct raised as [[[u |] [resp |] | | | |] |]; cbn in *; try done.
  destruct Hc as (completed & D & Hwalk & Hst & Hfirst & Hlater).
  exists completed, D, (out p). rewrite <- Hst. repeat split; try done.
  intros Hne. destruct (Hlater Hne) as (d & d' & Hd & Ha & ->).
  destruct (last completed) as [s |] eqn:Hl;
    [| by apply last_None in Hl]. cbn in Hst. subst s.
  exists (state fr), d, d'. repeat split; try done.
  intros Heq. pose proof (strptime_valid _ _ Hd) as Hv.
  pose proof (add_one_day_valid _ _ Hv Ha) as Hv'.
  pose proof (add_one_day_ltb _ _ Hv Ha) as Hlt.
  rewrite Heq in Hd. apply strptime_strftime_inv in Hd; [| done]. subst d'.
  by rewrite date_ltb_irrefl in Hlt.
Qed.

Lemma fatal_error_checkpoint_witness :
  do_sync refused_on_second_day 5 (typed [usd]) "2024-01-01"
    = Some refused_on_second_day_run ∧
  r_exit refused_on_second_day_run = SysExit (-1) ∧
  ∃ completed D before,
    walked (r_frame refused_on_second_day_run) = completed ++ [D] ∧
    out (r_proc refused_on_second_day_run)
      = before ++ [STATE (default "2024-01-01" (last completed))] ∧
    states_of before = [] ∧
    (completed = [] → D = "2024-01-01") ∧
    (completed ≠ [] →
     ∃ s d d', last completed = Some s ∧ Calendar.strptime s = Some d ∧
               Calendar.add_one_day d = Some d' ∧ D = Calendar.strftime d' ∧ s ≠ D).
Proof.
  split; [vm_compute; reflexivity |]. split; [reflexivity |].
  apply (fatal_error_checkpoint refused_on_second_day 5 (typed [usd]) "2024-01-01");
    [vm_compute; reflexivity | reflexivity].
Defined.

(** C3 as stated fails: the provider refuses the first request of the run,
    for the date 2024-01-01; no date was completed, and the state written
    is 2024-01-01 itself. *)
Lemma first_date_fails_state_is_that_date :
  do_sync refused_at_once 5 (typed [usd]) "2024-01-01" = Some refused_at_once_run ∧
  r_exit refused_at_once_run = SysExit (-1) ∧
  walked (r_frame refused_at_once_run) = ["2024-01-01"] ∧
  states_of (out (r_proc refused_at_once_run)) = ["2024-01-01"].
Proof. split; [vm_compute; reflexivity |]. by repeat split. Qed.

End Checkpointing.

(** ** Schema messages *)

Module SchemaEmission.
Import Tap Notions Scenarios SchemaFacts SyncFacts Checkpointing.

Lemma sorted_lookup {A} (R : relation A) `{!Reflexive R} (l : list A) i j a b :
  StronglySorted R l → (i ≤ j)%nat → l !! i = Some a → l !! j = Some b → R a b.
Proof.
  intros Hs. revert i j. induction Hs as [| x l Hs IH Hall]; intros i j Hij Hi Hj.
  - done.
  - destruct i as [| i], j as [| j]; cbn in *; simplify_eq; try lia.
    + done.
    + rewrite Forall_forall in Hall. apply Hall. by eapply list_elem_of_lookup_2.
    + eapply IH; [| done | done]. lia.
Qed.

Lemma finish_schemas p fr raised :
  schemas_of (out (r_proc (finish p fr raised))) = schemas_of (out p) ∧
  cur_schema (r_proc (finish p fr raised)) = cur_schema p.
Proof.
  unfold finish, schemas_of.
  destruct raised as [[[u |] [resp |] | | | |] |]; cbn; rewrite ?omap_app; cbn;
    by rewrite ?app_nil_r.
Qed.

(** C8.  In every run, the schema object at start, the schemas written, in
    the order of writing, and the schema object at the end form a growing
    sequence: of two of them the later one has the top-level type of the
    earlier one and each of its properties with the same declaration, hence
    at least as many properties; the [date] property of the start is in all
    of them. *)
Theorem schema_only_grows E fuel cfg start r :
  do_sync E fuel cfg start = Some r →
  let history := schema :: schemas_of (out (r_proc r)) ++ [cur_schema (r_proc r)] in
  ∀ i j a b, (i ≤ j)%nat → history !! i = Some a → history !! j = Some b →
    s_type a = s_type b ∧
    (∀ k v, properties a !! k = Some v → properties b !! k = Some v) ∧
    (size (properties a) ≤ size (properties b))%nat ∧
    properties b !! "date" = Some (mkproperty (TypeName "string") (Some "date-time")).
Proof.
  intros Hr history.
  destruct (do_sync_inv _ _ _ _ _ Hr) as (p & fr & raised & Hw & ->).
  destruct (while_loop_grows _ _ _ _ _ _ _ _ _ Hw) as (added & Ho & _ & Hs).
  assert (StronglySorted extends history) as Hh.
  { unfold history. destruct (finish_schemas p fr raised) as [-> ->].
    by rewrite Ho. }
  assert (∀ a b, extends a b →
            ∀ k v, properties a !! k = Some v → properties b !! k = Some v) as Hext.
  { intros a b [_ Hsub] k v Hk. by eapply lookup_weaken. }
  intros i j a b Hij Hi Hj.
  pose proof (sorted_lookup extends history i j a b Hh Hij Hi Hj) as Hab.
  assert (extends schema b) as H0b.
  { apply (sorted_lookup extends history 0 j schema b Hh); [lia | done | done]. }
  split; [apply Hab |]. split; [by apply Hext |].
  split; [apply map_subseteq_size, Hab |].
  by apply (Hext schema b H0b).
Qed.

Lemma schema_only_grows_witness :
  do_sync two_days 5 (typed [usd]) "2024-01-01" = Some two_days_run ∧
  let history := schema :: schemas_of (out (r_proc two_days_run))
                   ++ [cur_schema (r_proc two_days_run)] in
  ∀ i j a b, (i ≤ j)%nat → history !! i = Some a → history !! j = Some b →
    s_type a = s_type b ∧
    (∀ k v, properties a !! k = Some v → properties b !! k = Some v) ∧
    (size (properties a) ≤ size (properties b))%nat ∧
    properties b !! "date" = Some (mkproperty (TypeName "string") (Some "date-time")).
Proof.
  split; [vm_compute; reflexivity |].
  apply (schema_only_grows two_days 5 (typed [usd]) "2024-01-01").
  vm_compute; reflexivity.
Defined.

(** A SCHEMA message is written by an iteration exactly when the schema
    object, after the codes of the payload were added, differs from
    [prev_schema], the copy made at the end of the previous date. *)
Lemma exchange_step_schema_message E cfg next prev ex p p' :
  exchange_step E cfg next prev ex p = (p', None) →
  schemas_of (out p') =
    schemas_of (out p) ++ (if decide (Some (cur_schema p') = prev) then [] else [cur_schema p']).
Proof.
  intros H%exchange_step_cases. inversion H; subst; unfold evolved, schemas_of; cbn;
    rewrite !omap_app; cbn;
    (destruct (decide (Some _ ≠ prev)) as [Hne | Heq];
     [rewrite decide_False by done
     | apply dec_stable in Heq; rewrite decide_True by done]);
    cbn; by rewrite ?app_nil_r.
Qed.

(** On the first date [prev_schema] is still the empty dictionary, so every
    exchange whose iteration completes writes the schema, new code or not. *)
Lemma first_date_writes_schema_each_time E cfg next ex p p' :
  exchange_step E cfg next None ex p = (p', None) →
  schemas_of (out p') = schemas_of (out p) ++ [cur_schema p'].
Proof.
  intros Hs. rewrite (exchange_step_schema_message _ _ _ _ _ _ _ Hs).
  by rewrite decide_False.
Qed.

(** C4, the code at a failing input.  One date, the exchanges USD and EUR,
    both answered with the codes EUR and GBP: the schema is written for the
    first exchange and written again, unchanged, for the second, whose
    payload adds no code to it. *)
Theorem schema_rewritten_without_change :
  do_sync one_day 5 (typed [usd; eur]) "2024-01-01" = Some one_day_two_exchanges_run ∧
  schemas_of (out (r_proc one_day_two_exchanges_run))
    = [schema_eur_gbp; schema_eur_gbp] ∧
  update_schema schema_eur_gbp eur_gbp = schema_eur_gbp.
Proof. repeat split; vm_compute; reflexivity. Qed.




End SchemaEmission.

(** ** Startup *)

Module Startup.
Import Tap Notions Scenarios.

(** Without a state file, [main] normalises the configured start date and
    runs [do_sync] from it. *)
Lemma main_without_state E fuel cfg d :
  strptime_with_tz E (start_date cfg) = Some d →
  main E fuel cfg ∅ = Sync <$> do_sync E fuel cfg (Calendar.strftime d).
Proof.
  intros H. unfold main. rewrite decide_False by (by intros []).
  cbn zeta. by rewrite lookup_empty, H.
Qed.

(** C1, what the code does.  When [args.state] is not empty, [main] copies
    it into its local [state] and returns: [do_sync] is in the [else]
    branch and is not called, whatever the state and the configuration. *)
Theorem main_given_state_does_not_sync E fuel cfg (args_state : gmap string string) :
  args_state ≠ ∅ → main E fuel cfg args_state = Some (NoSync ExitNormally).
Proof. intros H. unfold main. by rewrite decide_True. Qed.

Lemma main_given_state_does_not_sync_witness :
  ({[ "start_date" := "2024-01-02" ]} : gmap string string) ≠ ∅ ∧
  main two_days 5 (typed [usd]) {[ "start_date" := "2024-01-02" ]}
    = Some (NoSync ExitNormally).
Proof.
  split; [apply insert_non_empty |].
  apply (main_given_state_does_not_sync two_days 5 (typed [usd])).
  apply insert_non_empty.
Defined.

End Startup.

(** ** Flattening *)

Module Flattening.
Import Tap Notions Scenarios CalendarFacts.

Lemma strftime_timestamp_midnight d :
  Calendar.strftime_timestamp d = Calendar.strftime d +:+ "T00:00:00Z".
Proof. reflexivity. Qed.

(** What [parse_response] does to the store when the date parses: it
    returns the address it was given in [rates], and the dictionary at that
    address has the two keys set. *)
Lemma parse_response_Ok (r : payload loc) (σ : store) d :
  Calendar.strptime (date r) = Some d →
  ∃ σ', parse_response r σ = (Ok (rates r), σ') ∧
        σ' (rates r) = flattened_of (mkpayload (base r) (date r) (σ (rates r))) d ∧
        ∀ l, l ≠ rates r → σ' l = σ l.
Proof.
  intros Hd. unfold parse_response. rewrite Hd. eexists. split; [done |]. split.
  - by rewrite !fn_lookup_insert.
  - intros l Hl. by rewrite !fn_lookup_insert_ne.
Qed.

(** When the date does not parse, the base currency is already written. *)
Lemma parse_response_ValueError (r : payload loc) (σ : store) :
  Calendar.strptime (date r) = None →
  ∃ σ', parse_response r σ = (Raise ValueError, σ') ∧
        σ' (rates r) = <[base r := VNum 1]> (σ (rates r)).
Proof.
  intros Hd. unfold parse_response. rewrite Hd. eexists. split; [done |].
  by rewrite fn_lookup_insert.
Qed.

(** C9, as the code has it.  For a payload whose date is the ['%Y-%m-%d']
    form of a calendar day of a year from 1000 on and whose base currency
    is not the word [date], the flattened record has the keys of the rates,
    the base currency and [date], and no other; each key occurs once; the
    base currency maps to 1.0, [date] to the payload's date followed by
    [T00:00:00Z], and the other keys to their rates. *)
Theorem flattened_record_shape (r : payload loc) (σ : store) d :
  Calendar.valid_date d = true →
  1000 <= Calendar.year d →
  date r = Calendar.strftime d →
  base r ≠ "date" →
  ∃ σ', parse_response r σ = (Ok (rates r), σ') ∧
    let flattened := σ' (rates r) in
    dom flattened = dom (σ (rates r)) ∪ {[ base r; "date" ]} ∧
    NoDup (map_to_list flattened).*1 ∧
    flattened !! base r = Some (VNum 1) ∧
    flattened !! "date" = Some (VStr (date r +:+ "T00:00:00Z")) ∧
    ∀ k, k ≠ base r → k ≠ "date" → flattened !! k = σ (rates r) !! k.
Proof.
  intros Hv Hy Hd Hb.
  destruct (parse_response_Ok r σ d) as (σ' & Hp & Hf & _).
  { rewrite Hd. by apply strptime_strftime. }
  exists σ'. split; [done |]. cbn zeta. rewrite Hf. unfold flattened_of. cbn.
  split.
  { rewrite !dom_insert_L. apply set_eq. intros x.
    rewrite !elem_of_union, !elem_of_singleton. tauto. }
  split; [apply NoDup_fst_map_to_list |].
  split; [by rewrite lookup_insert_ne, lookup_insert_eq |].
  split; [by rewrite lookup_insert_eq, strftime_timestamp_midnight, Hd |].
  intros k Hk1 Hk2. by rewrite !lookup_insert_ne.
Qed.

Lemma flattened_record_shape_witness :
  Calendar.valid_date (Calendar.mkdate 2024 1 1) = true ∧
  1000 <= Calendar.year (Calendar.mkdate 2024 1 1) ∧
  date crowded_payload = Calendar.strftime (Calendar.mkdate 2024 1 1) ∧
  base crowded_payload ≠ "date" ∧
  ∃ σ', parse_response crowded_payload crowded_store = (Ok (rates crowded_payload), σ') ∧
    let flattened := σ' (rates crowded_payload) in
    dom flattened = dom (crowded_store (rates crowded_payload))
                      ∪ {[ base crowded_payload; "date" ]} ∧
    NoDup (map_to_list flattened).*1 ∧
    flattened !! base crowded_payload = Some (VNum 1) ∧
    flattened !! "date" = Some (VStr (date crowded_payload +:+ "T00:00:00Z")) ∧
    ∀ k, k ≠ base crowded_payload → k ≠ "date" →
         flattened !! k = crowded_store (rates crowded_payload) !! k.
Proof.
  split; [reflexivity |]. split; [cbn; lia |]. split; [reflexivity |]. split; [done |].
  apply (flattened_record_shape crowded_payload crowded_store (Calendar.mkdate 2024 1 1));
    [reflexivity | cbn; lia | reflexivity | done].
Defined.

(** C9 as stated fails at two payloads.  With the base currency named
    [date], the key [date] of the flattened record holds the timestamp and
    no key maps the base currency to 1.0.  With the date 0999-01-01, a day
    of the calendar in the ['%Y-%m-%d'] form, the timestamp written is
    999-01-01T00:00:00Z, the year without its zero. *)
Lemma flattened_record_off_shape :
  fst (parse_response date_based_payload plain_store) = Ok 7%positive ∧
  snd (parse_response date_based_payload plain_store) 7%positive !! base date_based_payload
    = Some (VStr "2024-01-01T00:00:00Z") ∧
  Calendar.strptime (date early_payload) = Some (Calendar.mkdate 999 1 1) ∧
  fst (parse_response early_payload plain_store) = Ok 7%positive ∧
  snd (parse_response early_payload plain_store) 7%positive !! "date"
    = Some (VStr "999-01-01T00:00:00Z") ∧
  "999-01-01T00:00:00Z" ≠ date early_payload +:+ "T00:00:00Z".
Proof. repeat split; try (vm_compute; reflexivity). done. Qed.

(** C10.  When the date parses, [parse_response] returns the address held
    in the payload's [rates], not a new dictionary; the dictionary at that
    address is the old one with the base currency set to 1.0 and then
    [date] set to the timestamp, and no other object is touched.  So a
    value that the provider gave under [date] is replaced by the
    timestamp, one given under the base currency by 1.0, and the payload's
    rates are no longer what was received unless they already had that
    [date]. *)
Theorem parse_response_mutates_payload (r : payload loc) (σ : store) d :
  Calendar.strptime (date r) = Some d →
  ∃ σ', parse_response r σ = (Ok (rates r), σ') ∧
    σ' (rates r) =
      <["date" := VStr (Calendar.strftime_timestamp d)]>
        (<[base r := VNum 1]> (σ (rates r))) ∧
    (∀ l, l ≠ rates r → σ' l = σ l) ∧
    σ' (rates r) !! "date" = Some (VStr (Calendar.strftime_timestamp d)) ∧
    (base r ≠ "date" → σ' (rates r) !! base r = Some (VNum 1)) ∧
    (σ (rates r) !! "date" ≠ Some (VStr (Calendar.strftime_timestamp d)) →
     σ' (rates r) ≠ σ (rates r)).
Proof.
  intros Hd. destruct (parse_response_Ok r σ d Hd) as (σ' & Hp & Hf & Hother).
  exists σ'. unfold flattened_of in Hf. cbn in Hf. rewrite Hf.
  split; [done |]. split; [done |]. split; [done |].
  split; [by rewrite lookup_insert_eq |].
  split; [intros Hb; by rewrite lookup_insert_ne, lookup_insert_eq |].
  intros Hold Heq. apply Hold. rewrite <- Heq. by rewrite lookup_insert_eq.
Qed.

Lemma parse_response_mutates_payload_witness :
  Calendar.strptime (date crowded_payload) = Some (Calendar.mkdate 2024 1 1) ∧
  crowded_store (rates crowded_payload) !! "date" = Some (VStr "yesterday") ∧
  crowded_store (rates crowded_payload) !! "USD" = Some (VNum (1 # 2)) ∧
  ∃ σ', parse_response crowded_payload crowded_store = (Ok (rates crowded_payload), σ') ∧
    σ' (rates crowded_payload) =
      <["date" := VStr (Calendar.strftime_timestamp (Calendar.mkdate 2024 1 1))]>
        (<[base crowded_payload := VNum 1]> (crowded_store (rates crowded_payload))) ∧
    (∀ l, l ≠ rates crowded_payload → σ' l = crowded_store l) ∧
    σ' (rates crowded_payload) !! "date"
      = Some (VStr (Calendar.strftime_timestamp (Calendar.mkdate 2024 1 1))) ∧
    (base crowded_payload ≠ "date" →
     σ' (rates crowded_payload) !! base crowded_payload = Some (VNum 1)) ∧
    (crowded_store (rates crowded_payload) !! "date"
       ≠ Some (VStr (Calendar.strftime_timestamp (Calendar.mkdate 2024 1 1))) →
     σ' (rates crowded_payload) ≠ crowded_store (rates crowded_payload)).
Proof.
  split; [reflexivity |]. split; [vm_compute; reflexivity |].
  split; [vm_compute; reflexivity |].
  apply (parse_response_mutates_payload crowded_payload crowded_store
           (Calendar.mkdate 2024 1 1)).
  reflexivity.
Defined.

End Flattening.

(** ** The date walker *)

Module DateWalker.
Import Tap Notions Scenarios CalendarFacts FetchFacts SyncFacts Checkpointing.



Global Instance date_lt_trans : Transitive date_lt.
Proof. intros a b c. apply date_ltb_trans. Qed.




Section Walk.

Context (E : env) (cfg : config).

(** When the provider always serves, an iteration whose date parses raises
    nothing: the record is flattened only when the payload bears that date. *)
Lemma exchange_step_never_raises next prev ex p d :
  always_serves E →
  Calendar.strptime next = Some d →
  ∃ p', exchange_step E cfg next prev ex p = (p', None).
Proof.
  intros Hok Hd.
  destruct (Hok (calls p)
              (mkrequest (base_url next) (ex_base ex) (symbols ex) (apikey cfg)))
    as (r & b & dt & rs & Hg & Hs & Hj).
  unfold exchange_step, request.
  rewrite (on_exception_success _ _ _ _ _ _ Hg Hs). cbn [f_result].
  rewrite Hj. cbn [doc_rates doc_date doc_base]. cbn zeta.
  destruct (decide (dt = next)) as [-> |]; [| eauto].
  destruct (schemaless cfg); [eauto |].
  pose proof (parse_response_fresh (mkpayload b next rs)) as Hp.
  destruct (fresh_payload (mkpayload b next rs)) as [r0 σ]. cbn [date] in Hp.
  rewrite Hd in Hp. destruct Hp as (σ' & -> & _). eauto.
Qed.

Lemma for_exchanges_never_raises next prev exs p d :
  always_serves E →
  Calendar.strptime next = Some d →
  ∃ p', for_exchanges E cfg next prev exs p = (p', None).
Proof.
  intros Hok Hd. revert p. induction exs as [| ex exs IH]; intros p; cbn; [eauto |].
  destruct (exchange_step_never_raises next prev ex p d Hok Hd) as (p1 & ->).
  apply IH.
Qed.


End Walk.




Lemma two_days_always_serves : always_serves two_days.
Proof.
  intros n a. eexists _, _, _, _. split; [reflexivity |].
  split; [unfold failing; cbn; lia | reflexivity].
Qed.

End DateWalker.

(** ** More on the fetcher *)

Module FetchPolicy.
Import Tap Notions Scenarios FetchFacts.

Lemma waits_S E n k :
  waits E n (S k) = (interval + random E n)%float :: waits E (S n) k.
Proof. reflexivity. Qed.

(** A call of the decorated function, seen whole: it made [k] retries, each
    after a retryable error and a wait, and stopped at call [n + k]. *)
Lemma on_exception_summary E more n sl a :
  ∃ k, (k ≤ more)%nat ∧
    f_calls (on_exception E more n sl a) = S (n + k) ∧
    f_slept (on_exception E more n sl a) = sl ++ waits E n k ∧
    (∀ j, (n ≤ j < n + k)%nat →
          ∃ r, http_get E j a = Replied r ∧ failing r ∧ retryable r) ∧
    match f_result (on_exception E more n sl a) with
    | Ok r => http_get E (n + k) a = Replied r ∧ ¬ failing r
    | Raise e =>
        (e = AttributeError ∧ http_get E (n + k) a = ConnectionFailed) ∨
        ∃ r, e = RequestException (Some (url a)) (Some r) ∧
             http_get E (n + k) a = Replied r ∧ failing r ∧
             (retryable r → k = more)
    end.
Proof.
  assert (∀ m0 n0 sl0 (f : fetched) (res : outcome http_response),
            f = mkfetched res (S n0) sl0 →
            match res with
            | Ok r => http_get E n0 a = Replied r ∧ ¬ failing r
            | Raise e =>
                (e = AttributeError ∧ http_get E n0 a = ConnectionFailed) ∨
                ∃ r, e = RequestException (Some (url a)) (Some r) ∧
                     http_get E n0 a = Replied r ∧ failing r ∧
                     (retryable r → 0%nat = m0)
            end →
            ∃ k, (k ≤ m0)%nat ∧ f_calls f = S (n0 + k) ∧
              f_slept f = sl0 ++ waits E n0 k ∧
              (∀ j, (n0 ≤ j < n0 + k)%nat →
                    ∃ r, http_get E j a = Replied r ∧ failing r ∧ retryable r) ∧
              match f_result f with
              | Ok r => http_get E (n0 + k) a = Replied r ∧ ¬ failing r
              | Raise e =>
                  (e = AttributeError ∧ http_get E (n0 + k) a = ConnectionFailed) ∨
                  ∃ r, e = RequestException (Some (url a)) (Some r) ∧
                       http_get E (n0 + k) a = Replied r ∧ failing r ∧
                       (retryable r → k = m0)
              end) as Hstop.
  { intros m0 n0 sl0 f res -> Hres. exists 0%nat.
    rewrite Nat.add_0_r, app_nil_r. cbn.
    split; [lia |]. split; [done |]. split; [done |].
    split; [intros j Hj; lia | done]. }
  revert n sl. induction more as [| more IH]; intros n sl.
  - destruct (http_get E n a) as [| r] eqn:Hg.
    + eapply Hstop; [by apply on_exception_connection | by left].
    + destruct (decide (failing r)) as [Hs | Hs].
      * eapply Hstop; [by apply on_exception_last |]. right. by exists r.
      * eapply Hstop; [by apply on_exception_success | done].
  - destruct (http_get E n a) as [| r] eqn:Hg.
    + eapply Hstop; [by apply on_exception_connection | by left].
    + destruct (decide (failing r)) as [Hs | Hs];
        [| eapply Hstop; [by apply on_exception_success | done]].
      destruct (decide (retryable r)) as [Hr | Hr];
        [| eapply Hstop; [by apply on_exception_giveup |]; right; by exists r].
      rewrite (on_exception_retry _ _ _ _ _ _ Hg Hs Hr).
      destruct (IH (S n) (sl ++ [(interval + random E n)%float]))
        as (k & Hk & Hc & Hsl & Hpre & Hres).
      exists (S k). replace (n + S k)%nat with (S n + k)%nat by lia.
      split; [lia |]. split; [done |].
      split; [by rewrite Hsl, <- app_assoc |].
      split.
      { intros j Hj. destruct (decide (j = n)) as [-> | Hne]; [eauto |].
        apply Hpre. lia. }
      destruct (f_result _) as [r' | e]; [done |].
      destruct Hres as [? | (r' & ? & ? & ? & Hlast)]; [by left |].
      right. exists r'. split; [done |]. split; [done |]. split; [done |].
      intros Hr'. f_equal. by apply Hlast.
Qed.

(** X1.  A fetch makes at least one and at most five calls of the provider.
    It sleeps once before every call but the first, 30 plus the jitter
    sample each time, and every call but the last was answered with an
    error status that is 429 or at least 500. *)
Theorem fetch_budget E n a :
  ∃ k, (k ≤ 4)%nat ∧
    f_calls (request E n a) = S (n + k) ∧
    f_slept (request E n a) = waits E n k ∧
    length (f_slept (request E n a)) = k ∧
    ∀ j, (n ≤ j < n + k)%nat →
         ∃ r, http_get E j a = Replied r ∧ failing r ∧ retryable r.
Proof.
  destruct (on_exception_summary E (max_tries - 1) n [] a)
    as (k & Hk & Hc & Hsl & Hpre & _).
  exists k. split; [done |]. split; [done |]. split; [done |]. split; [| done].
  unfold request. rewrite Hsl. cbn. unfold waits. by rewrite length_fmap, length_seq.
Qed.


(** X3.  Five errors in a row with status 429 or 5xx: the fetch makes five
    calls, sleeps four times, and raises the error of the fifth answer. *)
Theorem retry_budget_exhausted E n a :
  (∀ j, (n ≤ j < n + 5)%nat →
        ∃ r, http_get E j a = Replied r ∧ failing r ∧ retryable r) →
  ∃ r, http_get E (n + 4) a = Replied r ∧
       f_result (request E n a) = Raise (RequestException (Some (url a)) (Some r)) ∧
       f_calls (request E n a) = (n + 5)%nat ∧
       f_slept (request E n a) = waits E n 4.
Proof.
  intros H. destruct (request_exhausts E n a H) as (r & Hg & Hr).
  exists r. by rewrite Hr.
Qed.

Lemma retry_budget_exhausted_witness :
  (∀ j, (0 ≤ j < 0 + 5)%nat →
        ∃ r, http_get overloaded j usd_request = Replied r ∧ failing r ∧ retryable r) ∧
  ∃ r, http_get overloaded (0 + 4) usd_request = Replied r ∧
       f_result (request overloaded 0 usd_request)
         = Raise (RequestException (Some (url usd_request)) (Some r)) ∧
       f_calls (request overloaded 0 usd_request) = (0 + 5)%nat ∧
       f_slept (request overloaded 0 usd_request) = waits overloaded 0 4.
Proof.
  assert (∀ j, (0 ≤ j < 0 + 5)%nat →
            ∃ r, http_get overloaded j usd_request = Replied r ∧ failing r ∧ retryable r)
    as H.
  { intros j _. eexists. split; [reflexivity |].
    unfold failing, retryable. cbn. lia. }
  split; [exact H |]. apply (retry_budget_exhausted overloaded 0 usd_request H).
Defined.

(** X4.  After [k] errors with status 429 or 5xx, [k] at most four, an
    answer that is not an error is returned: [k + 1] calls, [k] waits. *)
Theorem retry_recovers E k n a r :
  (k ≤ 4)%nat →
  (∀ j, (n ≤ j < n + k)%nat →
        ∃ r', http_get E j a = Replied r' ∧ failing r' ∧ retryable r') →
  http_get E (n + k) a = Replied r → ¬ failing r →
  request E n a = mkfetched (Ok r) (S (n + k)) (waits E n k).
Proof. apply request_recovers. Qed.

Lemma retry_recovers_witness :
  (2 ≤ 4)%nat ∧
  (∀ j, (0 ≤ j < 0 + 2)%nat →
        ∃ r', http_get flaky j usd_request = Replied r' ∧ failing r' ∧ retryable r') ∧
  http_get flaky (0 + 2) usd_request
    = Replied (served "USD" "2024-01-01" eur_gbp) ∧
  ¬ failing (served "USD" "2024-01-01" eur_gbp) ∧
  request flaky 0 usd_request
    = mkfetched (Ok (served "USD" "2024-01-01" eur_gbp))
        (S (0 + 2)) (waits flaky 0 2).
Proof.
  assert (∀ j, (0 ≤ j < 0 + 2)%nat →
            ∃ r', http_get flaky j usd_request = Replied r' ∧ failing r' ∧ retryable r')
    as H.
  { intros j Hj. exists (denied 503).
    split; [| unfold failing, retryable; cbn; lia].
    destruct j as [| [| j]]; [reflexivity | reflexivity | lia]. }
  assert (¬ failing (served "USD" "2024-01-01" eur_gbp)) as Hs.
  { unfold failing. cbn. lia. }
  split; [lia |]. split; [exact H |]. split; [reflexivity |]. split; [exact Hs |].
  apply (retry_recovers flaky 2 0 usd_request); [lia | exact H | reflexivity | exact Hs].
Defined.

(** X5.  An error status that is neither 429 nor at least 500 ends the
    fetch on the spot: one call, no wait, the error raised. *)
Theorem client_error_not_retried E n a r :
  http_get E n a = Replied r → failing r → ¬ retryable r →
  request E n a =
    mkfetched (Raise (RequestException (Some (url a)) (Some r))) (S n) [].
Proof. apply request_gives_up. Qed.

Lemma client_error_not_retried_witness :
  http_get refused_at_once 0 usd_request
    = Replied (denied 403) ∧
  failing (denied 403) ∧
  ¬ retryable (denied 403) ∧
  request refused_at_once 0 usd_request =
    mkfetched (Raise (RequestException (Some (url usd_request))
                        (Some (denied 403)))) 1 [].
Proof.
  assert (failing (denied 403)) as Hs
    by (unfold failing; cbn; lia).
  assert (¬ retryable (denied 403)) as Hr
    by (unfold retryable; cbn; lia).
  split; [reflexivity |]. split; [exact Hs |]. split; [exact Hr |].
  apply (client_error_not_retried refused_at_once 0 usd_request);
    [reflexivity | exact Hs | exact Hr].
Defined.

End FetchPolicy.

(** ** More on the schema evolver and on flattening *)

Module Shaping.
Import Tap Notions Scenarios SchemaFacts CalendarFacts Flattening.

(** X7.  What an observation makes of the schema, in closed form: the
    top-level type is kept, and the properties are the old ones, as they
    were, together with a nullable number for each code of the rates that
    had no property; an old property wins over a code of the same name. *)
Theorem schema_after_observation sch (rs : dict) :
  s_type (update_schema sch rs) = s_type sch ∧
  properties (update_schema sch rs)
    = properties sch ∪ ((λ _, nullable_number) <$> rs) ∧
  dom (properties (update_schema sch rs)) = dom (properties sch) ∪ dom rs.
Proof.
  split; [apply update_schema_type |].
  assert (properties (update_schema sch rs)
            = properties sch ∪ ((λ _, nullable_number) <$> rs)) as Heq.
  { apply map_eq. intros k.
    rewrite update_schema_lookup, lookup_union, lookup_fmap.
    destruct (properties sch !! k), (rs !! k); done. }
  split; [done |]. by rewrite Heq, dom_union_L, dom_fmap_L.
Qed.

(** X8.  Observations compose without regard to order or repetition: two
    payloads observed one after the other give the same schema in either
    order, and a payload observed twice gives what it gives once. *)
Theorem observations_commute sch (a b : dict) :
  update_schema (update_schema sch a) b = update_schema (update_schema sch b) a ∧
  update_schema (update_schema sch a) a = update_schema sch a.
Proof.
  split; (apply schema_eq; [by rewrite !update_schema_type |]);
    apply map_eq; intros k; rewrite !update_schema_lookup;
    destruct (properties sch !! k), (a !! k), (b !! k); done.
Qed.

(** X9.  Flattening the same payload object a second time changes nothing
    more: the second call returns the same address and leaves every
    dictionary of the store as the first call left it. *)
Theorem parse_response_twice (r : payload loc) (σ : store) d :
  Calendar.strptime (date r) = Some d →
  ∃ σ1 σ2,
    parse_response r σ = (Ok (rates r), σ1) ∧
    parse_response r σ1 = (Ok (rates r), σ2) ∧
    ∀ l, σ2 l = σ1 l.
Proof.
  intros Hd.
  destruct (parse_response_Ok r σ d Hd) as (σ1 & H1 & Hf1 & Ho1).
  destruct (parse_response_Ok r σ1 d Hd) as (σ2 & H2 & Hf2 & Ho2).
  exists σ1, σ2. split; [done |]. split; [done |]. intros l.
  destruct (decide (l = rates r)) as [-> | Hne]; [| by apply Ho2].
  rewrite Hf2, Hf1. unfold flattened_of. cbn.
  apply map_eq. intros k.
  destruct (decide (k = "date")) as [-> | Hk]; [by rewrite !lookup_insert_eq |].
  rewrite (lookup_insert_ne _ "date" k) by done.
  destruct (decide (k = base r)) as [-> | Hb].
  - rewrite lookup_insert_eq. rewrite (lookup_insert_ne _ "date") by done.
    by rewrite lookup_insert_eq.
  - rewrite (lookup_insert_ne _ (base r) k) by done.
    by rewrite (lookup_insert_ne _ "date" k) by done.
Qed.

Lemma parse_response_twice_witness :
  Calendar.strptime (date crowded_payload) = Some (Calendar.mkdate 2024 1 1) ∧
  ∃ σ1 σ2,
    parse_response crowded_payload crowded_store = (Ok (rates crowded_payload), σ1) ∧
    parse_response crowded_payload σ1 = (Ok (rates crowded_payload), σ2) ∧
    ∀ l, σ2 l = σ1 l.
Proof.
  split; [reflexivity |].
  apply (parse_response_twice crowded_payload crowded_store (Calendar.mkdate 2024 1 1)).
  reflexivity.
Defined.

(** X10.  When the payload's date does not parse, [parse_response] raises
    [ValueError] after it has written the base currency: the payload's
    rates hold the base currency at 1.0, no [date] was written, and no
    other object is touched. *)
Theorem parse_response_fails_half_done (r : payload loc) (σ : store) :
  Calendar.strptime (date r) = None →
  ∃ σ', parse_response r σ = (Raise ValueError, σ') ∧
        σ' (rates r) !! base r = Some (VNum 1) ∧
        (∀ k, k ≠ base r → σ' (rates r) !! k = σ (rates r) !! k) ∧
        (∀ l, l ≠ rates r → σ' l = σ l).
Proof.
  intros Hd. unfold parse_response. rewrite Hd. eexists. split; [done |].
  rewrite fn_lookup_insert.
  split; [by rewrite lookup_insert_eq |].
  split; [intros k Hk; by rewrite lookup_insert_ne |].
  intros l Hl. by rewrite fn_lookup_insert_ne.
Qed.

Lemma parse_response_fails_half_done_witness :
  Calendar.strptime (date misdated_payload) = None ∧
  ∃ σ', parse_response misdated_payload crowded_store = (Raise ValueError, σ') ∧
        σ' (rates misdated_payload) !! base misdated_payload = Some (VNum 1) ∧
        (∀ k, k ≠ base misdated_payload →
              σ' (rates misdated_payload) !! k
                = crowded_store (rates misdated_payload) !! k) ∧
        (∀ l, l ≠ rates misdated_payload → σ' l = crowded_store l).
Proof.
  split; [reflexivity |].
  apply (parse_response_fails_half_done misdated_payload crowded_store).
  reflexivity.
Defined.

End Shaping.

(** ** More on runs *)

Module RunFacts.
Import Tap Notions Scenarios CalendarFacts FetchFacts SchemaFacts SyncFacts
  Checkpointing FetchPolicy DateWalker.

(** The calls made by an iteration are those of its fetch. *)
Lemma exchange_step_calls E cfg next prev ex p p' oe :
  exchange_step E cfg next prev ex p = (p', oe) →
  calls p' = f_calls (request E (calls p)
                        (mkrequest (base_url next) (ex_base ex) (symbols ex)
                           (apikey cfg))).
Proof. intros H%exchange_step_cases. by destruct H. Qed.

Lemma for_exchanges_calls E cfg next prev exs p p' oe :
  for_exchanges E cfg next prev exs p = (p', oe) →
  (calls p ≤ calls p' ≤ calls p + 5 * length exs)%nat.
Proof.
  revert p. induction exs as [| ex exs IH]; intros p; cbn [for_exchanges length].
  - intros [= <- <-]. lia.
  - destruct (exchange_step E cfg next prev ex p) as [p1 oe1] eqn:Hs.
    pose proof (exchange_step_calls _ _ _ _ _ _ _ _ Hs) as Hc.
    destruct (on_exception_summary E (max_tries - 1) (calls p) []
                (mkrequest (base_url next) (ex_base ex) (symbols ex) (apikey cfg)))
      as (k & Hk & Hk' & _).
    unfold request in Hc. rewrite Hk' in Hc. unfold max_tries in Hk. destruct oe1 as [e1 |].
    + intros [= <- <-]. lia.
    + intros H. apply IH in H. lia.
Qed.

Lemma always_serves_never_fails E : always_serves E → never_fails E.
Proof.
  intros H n a. destruct (H n a) as (r & b & dt & rs & Hg & Hs & _). eauto.
Qed.

Lemma for_exchanges_calls_exact E cfg next prev exs p p' :
  always_serves E →
  for_exchanges E cfg next prev exs p = (p', None) →
  calls p' = (calls p + length exs)%nat.
Proof.
  intros Hok%always_serves_never_fails. revert p. induction exs as [| ex exs IH]; intros p;
    cbn [for_exchanges length].
  - intros [= <-]. lia.
  - destruct (exchange_step E cfg next prev ex p) as [p1 oe1] eqn:Hs.
    pose proof (exchange_step_calls _ _ _ _ _ _ _ _ Hs) as Hc.
    destruct (request_never_fails E (calls p)
                (mkrequest (base_url next) (ex_base ex) (symbols ex) (apikey cfg)) Hok)
      as (r & Hr).
    rewrite Hr in Hc. cbn in Hc. destruct oe1 as [e1 |]; [done |].
    intros H. apply IH in H. lia.
Qed.

(** X11.  A start date that does not parse ends the run on the spot with
    the [ValueError] of the loop condition: nothing is fetched and nothing
    is written, not even the state. *)
Theorem unparsable_start_date E fuel cfg start :
  Calendar.strptime start = None →
  do_sync E (S fuel) cfg start
    = Some (mkrun boot (mkframe start start None []) (Uncaught ValueError)).
Proof.
  intros Hd. unfold do_sync, do_sync_from. cbn. by rewrite Hd.
Qed.

Lemma unparsable_start_date_witness :
  Calendar.strptime "01/02/2024" = None ∧
  do_sync two_days 1 (typed [usd]) "01/02/2024"
    = Some (mkrun boot (mkframe "01/02/2024" "01/02/2024" None [])
              (Uncaught ValueError)).
Proof.
  split; [reflexivity |].
  apply (unparsable_start_date two_days 0 (typed [usd]) "01/02/2024"). reflexivity.
Defined.

(** X12.  A start date after today: the loop body is never entered, no
    request is made, and the run ends normally after writing the start
    date as its state. *)
Theorem start_after_today E fuel cfg start d :
  Calendar.strptime start = Some d →
  Calendar.date_ltb (Calendar.dt_date (utcnow E 0)) d = true →
  do_sync E (S fuel) cfg start
    = Some (mkrun (mkproc schema [STATE start] 0 [])
              (mkframe start start None []) ExitNormally).
Proof.
  intros Hd Hlt. unfold do_sync, do_sync_from. cbn.
  rewrite Hd, midnight_leb. unfold Calendar.date_leb. by rewrite Hlt.
Qed.

Lemma start_after_today_witness :
  Calendar.strptime "2024-01-03" = Some (Calendar.mkdate 2024 1 3) ∧
  Calendar.date_ltb (Calendar.dt_date (utcnow two_days 0)) (Calendar.mkdate 2024 1 3)
    = true ∧
  do_sync two_days 1 (typed [usd]) "2024-01-03"
    = Some (mkrun (mkproc schema [STATE "2024-01-03"] 0 [])
              (mkframe "2024-01-03" "2024-01-03" None []) ExitNormally).
Proof.
  split; [reflexivity |]. split; [reflexivity |].
  apply (start_after_today two_days 0 (typed [usd]) "2024-01-03"
           (Calendar.mkdate 2024 1 3)); reflexivity.
Defined.

(** X14.  With no exchange configured the run walks the dates without a
    single request: it writes no schema and no record, and at most the one
    state message. *)
Theorem no_exchange_no_request E fuel cfg start r :
  exchanges cfg = [] →
  do_sync E fuel cfg start = Some r →
  calls (r_proc r) = 0%nat ∧
  schemas_of (out (r_proc r)) = [] ∧
  records_of (out (r_proc r)) = [] ∧
  (out (r_proc r) = [] ∨ out (r_proc r) = [STATE (state (r_frame r))]).
Proof.
  intros Hex Hr.
  destruct (do_sync_inv _ _ _ _ _ Hr) as (p & fr & raised & Hw & ->).
  assert (p = boot) as ->.
  { revert Hw.
    apply (while_loop_rule E cfg (λ _ q _, q = boot) (λ q _ _, q = boot));
      try done; rewrite Hex; cbn; intros; by simplify_eq. }
  unfold finish. destruct raised as [[[u |] [resp |] | | | |] |]; cbn; auto.
Qed.

Lemma no_exchange_no_request_witness :
  exchanges (typed []) = [] ∧
  do_sync two_days 5 (typed []) "2024-01-01"
    = Some (mkrun (mkproc schema [STATE "2024-01-02"] 0 [])
              (mkframe "2024-01-02" "2024-01-03" (Some schema)
                 ["2024-01-01"; "2024-01-02"]) ExitNormally) ∧
  calls (mkproc schema [STATE "2024-01-02"] 0 []) = 0%nat ∧
  schemas_of (out (mkproc schema [STATE "2024-01-02"] 0 [])) = [] ∧
  records_of (out (mkproc schema [STATE "2024-01-02"] 0 [])) = [] ∧
  (out (mkproc schema [STATE "2024-01-02"] 0 []) = [] ∨
   out (mkproc schema [STATE "2024-01-02"] 0 []) = [STATE "2024-01-02"]).
Proof.
  split; [reflexivity |]. split; [vm_compute; reflexivity |].
  apply (no_exchange_no_request two_days 5 (typed []) "2024-01-01"
           (mkrun (mkproc schema [STATE "2024-01-02"] 0 [])
              (mkframe "2024-01-02" "2024-01-03" (Some schema)
                 ["2024-01-01"; "2024-01-02"]) ExitNormally));
    [reflexivity | vm_compute; reflexivity].
Defined.

(** X15.  A run never calls the provider more than five times for an
    exchange on a date: the number of its calls is at most five times the
    number of exchanges times the number of dates walked. *)
Theorem calls_bounded E fuel cfg start r :
  do_sync E fuel cfg start = Some r →
  (calls (r_proc r)
   ≤ 5 * (length (exchanges cfg) * length (walked (r_frame r))))%nat.
Proof.
  intros Hr.
  destruct (do_sync_inv _ _ _ _ _ Hr) as (p & fr & raised & Hw & ->).
  assert (calls p ≤ 5 * (length (exchanges cfg) * length (walked fr)))%nat as Hb.
  { revert Hw.
    apply (while_loop_rule E cfg
             (λ _ q f, calls q ≤ 5 * (length (exchanges cfg) * length (walked f)))%nat
             (λ q f _, calls q ≤ 5 * (length (exchanges cfg) * length (walked f)))%nat);
      try done.
    - intros i q fr0 d0 q' e Hq _ _ Hb. apply for_exchanges_calls in Hb.
      cbn. rewrite length_app. cbn. lia.
    - intros i q fr0 d0 q' Hq _ _ Hb _. apply for_exchanges_calls in Hb.
      cbn. rewrite length_app. cbn. lia.
    - intros i q fr0 d0 q' d' Hq _ _ Hb _. apply for_exchanges_calls in Hb.
      cbn. rewrite length_app. cbn. lia.
    - cbn. lia. }
  unfold finish. by destruct raised as [[[u |] [resp |] | | | |] |].
Qed.

Lemma calls_bounded_witness :
  do_sync refused_on_second_day 5 (typed [usd]) "2024-01-01"
    = Some refused_on_second_day_run ∧
  (calls (r_proc refused_on_second_day_run)
   ≤ 5 * (length (exchanges (typed [usd]))
          * length (walked (r_frame refused_on_second_day_run))))%nat.
Proof.
  split; [vm_compute; reflexivity |].
  apply (calls_bounded refused_on_second_day 5 (typed [usd]) "2024-01-01").
  vm_compute; reflexivity.
Defined.

(** X16.  When every call is answered with a status that is no error and a
    document that has its three members, the number of calls a run makes
    is the number of configured exchanges times the number of dates it
    walked. *)
Theorem one_call_per_exchange_and_date E fuel cfg start r :
  always_serves E →
  do_sync E fuel cfg start = Some r →
  calls (r_proc r) = (length (exchanges cfg) * length (walked (r_frame r)))%nat.
Proof.
  intros Hok Hr.
  destruct (do_sync_inv _ _ _ _ _ Hr) as (p & fr & raised & Hw & ->).
  assert (calls p = length (exchanges cfg) * length (walked fr))%nat as Hb.
  { revert Hw.
    apply (while_loop_rule E cfg
             (λ _ q f, calls q = length (exchanges cfg) * length (walked f))%nat
             (λ q f _, calls q = length (exchanges cfg) * length (walked f))%nat);
      try done.
    - intros i q fr0 d0 q' e Hq Hd0 _ Hb.
      destruct (for_exchanges_never_raises E cfg (next_date fr0) (prev_schema fr0)
                  (exchanges cfg) q d0 Hok Hd0) as (q1 & Hq1).
      rewrite Hq1 in Hb. done.
    - intros i q fr0 d0 q' Hq _ _ Hb _.
      apply (for_exchanges_calls_exact _ _ _ _ _ _ _ Hok) in Hb.
      cbn. rewrite length_app. cbn. lia.
    - intros i q fr0 d0 q' d' Hq _ _ Hb _.
      apply (for_exchanges_calls_exact _ _ _ _ _ _ _ Hok) in Hb.
      cbn. rewrite length_app. cbn. lia. }
  unfold finish. by destruct raised as [[[u |] [resp |] | | | |] |].
Qed.

Lemma one_call_per_exchange_and_date_witness :
  always_serves one_day ∧
  do_sync one_day 5 (typed [usd; eur]) "2024-01-01" = Some one_day_two_exchanges_run ∧
  calls (r_proc one_day_two_exchanges_run)
    = (length (exchanges (typed [usd; eur]))
       * length (walked (r_frame one_day_two_exchanges_run)))%nat.
Proof.
  assert (always_serves one_day) as Hok.
  { intros n a. eexists _, _, _, _. split; [reflexivity |].
    split; [unfold failing; cbn; lia | reflexivity]. }
  split; [exact Hok |]. split; [vm_compute; reflexivity |].
  apply (one_call_per_exchange_and_date one_day 5 (typed [usd; eur]) "2024-01-01");
    [exact Hok | vm_compute; reflexivity].
Defined.

(** An iteration for a date that parses does not raise [ValueError]. *)
Lemma exchange_step_no_value_error E cfg next prev ex p p' e d :
  Calendar.strptime next = Some d →
  exchange_step E cfg next prev ex p = (p', Some e) →
  e ≠ ValueError.
Proof.
  intros Hd H%exchange_step_cases.
  destruct (on_exception_summary E (max_tries - 1) (calls p) []
              (mkrequest (base_url next) (ex_base ex) (symbols ex) (apikey cfg)))
    as (k & _ & _ & _ & _ & Hres).
  fold (request E (calls p)
          (mkrequest (base_url next) (ex_base ex) (symbols ex) (apikey cfg))) in Hres.
  fold (fetch_of E cfg next ex p) in Hres.
  inversion H as [e0 Hf | resp Hf Hj | resp doc Hf Hj Hr | resp doc rs Hf Hj Hr Hd'
                 | resp doc rs dt Hf Hj Hr Hd' Hne | resp doc rs Hf Hj Hr Hd' Hmode
                 | resp doc rs Hf Hj Hr Hd' Hmode Hb
                 | resp doc rs b d0 Hf Hj Hr Hd' Hmode Hb Hparse
                 | resp doc rs b Hf Hj Hr Hd' Hmode Hb Hparse];
    subst; try done.
  - rewrite Hf in Hres. by destruct Hres as [[-> _] | (resp & -> & _)].
  - congruence.
Qed.

Lemma for_exchanges_no_value_error E cfg next prev exs p p' e d :
  Calendar.strptime next = Some d →
  for_exchanges E cfg next prev exs p = (p', Some e) →
  e ≠ ValueError.
Proof.
  intros Hd. revert p. induction exs as [| ex exs IH]; intros p; cbn; [done |].
  destruct (exchange_step E cfg next prev ex p) as [p1 [e1 |]] eqn:Hs.
  - intros [= <- <-]. by eapply exchange_step_no_value_error.
  - apply IH.
Qed.

(** X13.  A run whose start date parses as a day of a year from 1000 on
    does not die on [ValueError]: every date string the loop makes parses
    back, and a payload is flattened only when it bears the date walked,
    which has parsed. *)
Theorem no_value_error_from_year_1000 E fuel cfg start S0 r :
  Calendar.strptime start = Some S0 →
  1000 <= Calendar.year S0 →
  do_sync E fuel cfg start = Some r →
  r_exit r ≠ Uncaught ValueError.
Proof.
  intros Hstart Hy Hr.
  destruct (do_sync_inv _ _ _ _ _ Hr) as (p & fr & raised & Hw & ->).
  assert (raised ≠ Some ValueError) as Hne.
  { revert Hw.
    apply (while_loop_rule E cfg
             (λ _ _ f, ∃ d, Calendar.strptime (next_date f) = Some d
                            ∧ 1000 <= Calendar.year d)
             (λ _ _ raised, raised ≠ Some ValueError)); try done.
    - intros i q f (d & Hd & _) Hnone. congruence.
    - intros i q f d q' e _ Hd _ Hb [= ->].
      by eapply for_exchanges_no_value_error.
    - intros i q f d q' d' (d0 & Hd0 & Hy0) Hd _ _ Ha.
      pose proof (strptime_valid _ _ Hd) as Hv. simplify_eq.
      pose proof (add_one_day_valid _ _ Hv Ha) as Hv'.
      pose proof (add_one_day_year _ _ Ha) as Hyy.
      exists d'. cbn. split; [apply strptime_strftime; [done | lia] | lia].
    - by exists S0. }
  unfold finish.
  destruct raised as [[[u |] [resp |] | | | |] |]; cbn; congruence.
Qed.

Lemma no_value_error_from_year_1000_witness :
  Calendar.strptime "2024-01-01" = Some (Calendar.mkdate 2024 1 1) ∧
  1000 <= Calendar.year (Calendar.mkdate 2024 1 1) ∧
  do_sync two_days 5 (typed [usd]) "2024-01-01" = Some two_days_run ∧
  r_exit two_days_run ≠ Uncaught ValueError.
Proof.
  split; [reflexivity |]. split; [cbn; lia |]. split; [vm_compute; reflexivity |].
  apply (no_value_error_from_year_1000 two_days 5 (typed [usd]) "2024-01-01"
           (Calendar.mkdate 2024 1 1));
    [reflexivity | cbn; lia | vm_compute; reflexivity].
Defined.

(** X23.  A run started at a day before the year 999 that is not after
    today, with every call answered by a complete document and no error
    status, walks that one date and dies on [ValueError] without writing a
    state: the string made for the next day has a year of fewer than four
    digits, which the condition of the loop cannot parse. *)
Theorem early_year_run_dies E fuel cfg start S0 r :
  always_serves E →
  Calendar.strptime start = Some S0 →
  Calendar.year S0 < 999 →
  Calendar.date_leb S0 (Calendar.dt_date (utcnow E 0)) = true →
  do_sync E fuel cfg start = Some r →
  r_exit r = Uncaught ValueError ∧
  walked (r_frame r) = [start] ∧
  states_of (out (r_proc r)) = [].
Proof.
  intros Hok Hstart Hy Hle Hr.
  destruct (do_sync_inv _ _ _ _ _ Hr) as (p & fr & raised & Hw & ->).
  assert (raised = Some ValueError ∧ walked fr = [start] ∧ states_of (out p) = [])
    as (-> & Hwalk & Hst); [| done].
  revert Hw.
  apply (while_loop_rule E cfg
           (λ i q f,
              (i = 0%nat ∧ next_date f = start ∧ walked f = [])
              ∧ states_of (out q) = []
              ∨ (Calendar.strptime (next_date f) = None ∧ walked f = [start]
                 ∧ states_of (out q) = []))
           (λ q f raised,
              raised = Some ValueError ∧ walked f = [start] ∧ states_of (out q) = [])).
  - intros i q f [[(_ & Hn & _) _] | (_ & Hw & Hs)] Hnone; [congruence | done].
  - intros i q f d [[(-> & Hn & _) _] | (Hnone & _)] Hd Hle'; [| congruence].
    rewrite Hn in Hd. simplify_eq. congruence.
  - intros i q f d q' e [[(_ & Hn & _) _] | (Hnone & _)] Hd _ Hb; [| congruence].
    destruct (for_exchanges_never_raises E cfg (next_date f) (prev_schema f)
                (exchanges cfg) q d Hok Hd) as (q1 & Hq1).
    rewrite Hq1 in Hb. done.
  - intros i q f d q' [[(_ & Hn & _) _] | (Hnone & _)] Hd _ _ Ha; [| congruence].
    rewrite Hn in Hd. simplify_eq.
    apply add_one_day_None in Ha; [| by eapply strptime_valid].
    rewrite Ha in Hy. cbn in Hy. lia.
  - intros i q f d q' d' [[(_ & Hn & Hw) Hs] | (Hnone & _)] Hd _ Hb Ha; [| congruence].
    rewrite Hn in Hd. assert (d = S0) as -> by congruence.
    right. cbn. rewrite Hw, Hn.
    pose proof (strptime_valid _ _ Hstart) as Hv.
    split; [| split; [done |]].
    + apply strptime_strftime_short; [by eapply add_one_day_valid |].
      revert Ha. unfold Calendar.add_one_day. intros Ha.
      repeat case_match; simplify_eq; cbn; lia.
    + apply for_exchanges_grows in Hb as (added & -> & Hs' & _).
      unfold states_of in *. by rewrite omap_app, Hs, Hs'.
  - left. done.
Qed.

Lemma early_year_run_dies_witness :
  always_serves two_days ∧
  Calendar.strptime "0500-01-01" = Some (Calendar.mkdate 500 1 1) ∧
  Calendar.year (Calendar.mkdate 500 1 1) < 999 ∧
  Calendar.date_leb (Calendar.mkdate 500 1 1) (Calendar.dt_date (utcnow two_days 0))
    = true ∧
  do_sync two_days 5 (typed [usd]) "0500-01-01" = Some early_run ∧
  r_exit early_run = Uncaught ValueError ∧
  walked (r_frame early_run) = ["0500-01-01"] ∧
  states_of (out (r_proc early_run)) = [].
Proof.
  split; [apply two_days_always_serves |]. split; [reflexivity |].
  split; [cbn; lia |]. split; [reflexivity |]. split; [vm_compute; reflexivity |].
  apply (early_year_run_dies two_days 5 (typed [usd]) "0500-01-01"
           (Calendar.mkdate 500 1 1));
    [apply two_days_always_serves | reflexivity | cbn; lia | reflexivity
    | vm_compute; reflexivity].
Defined.

End RunFacts.

(** ** What is written downstream *)

Module OutputFacts.
Import Tap Notions Scenarios CalendarFacts FetchFacts SchemaFacts SyncFacts
  Checkpointing FetchPolicy DateWalker.

Lemma records_of_app a b : records_of (a ++ b) = records_of a ++ records_of b.
Proof. apply omap_app. Qed.

Lemma finish_records p fr raised :
  records_of (out (r_proc (finish p fr raised))) = records_of (out p) ∧
  walked (r_frame (finish p fr raised)) = walked fr.
Proof.
  unfold finish.
  destruct raised as [[[u |] [resp |] | | | |] |]; cbn;
    rewrite ?records_of_app; cbn; by rewrite ?app_nil_r.
Qed.

Lemma records_of_evolved f prev rs recs p :
  records_of (out (evolved f prev rs recs p)) = records_of (out p) ++ records_of recs.
Proof.
  unfold evolved. cbn. rewrite !records_of_app. by destruct (decide _).
Qed.

(** A fetch that returns was answered, by the response it returns. *)
Lemma fetch_answered E cfg next ex p resp :
  f_result (fetch_of E cfg next ex p) = Ok resp →
  ∃ n, http_get E n (mkrequest (base_url next) (ex_base ex) (symbols ex) (apikey cfg))
         = Replied resp ∧ ¬ failing resp.
Proof.
  unfold fetch_of, request. intros Hf.
  destruct (on_exception_summary E (max_tries - 1) (calls p) []
              (mkrequest (base_url next) (ex_base ex) (symbols ex) (apikey cfg)))
    as (k & _ & _ & _ & _ & Hres).
  rewrite Hf in Hres. eauto.
Qed.

(** The records of an iteration: at most one, made of the answer fetched. *)
Lemma exchange_step_records E cfg next prev ex p p' oe :
  ex ∈ exchanges cfg →
  exchange_step E cfg next prev ex p = (p', oe) →
  ∃ news, records_of (out p') = records_of (out p) ++ news ∧
          Forall (record_for E cfg next) news.
Proof.
  intros Hex H%exchange_step_cases.
  destruct H as [e Hf | resp Hf Hj | resp doc Hf Hj Hr | resp doc rs Hf Hj Hr Hd
                | resp doc rs dt Hf Hj Hr Hd Hne | resp doc rs Hf Hj Hr Hd Hmode
                | resp doc rs Hf Hj Hr Hd Hmode Hb
                | resp doc rs b d Hf Hj Hr Hd Hmode Hb Hparse
                | resp doc rs b Hf Hj Hr Hd Hmode Hb Hparse];
    rewrite ?records_of_evolved; cbn;
    try (exists []; rewrite app_nil_r; split; [done | constructor]).
  - destruct (fetch_answered _ _ _ _ _ _ Hf) as (n & Hg & Hs).
    eexists. split; [done |]. apply Forall_singleton.
    exists n, ex, resp, doc. rewrite Hmode. done.
  - destruct (fetch_answered _ _ _ _ _ _ Hf) as (n & Hg & Hs).
    eexists. split; [done |]. apply Forall_singleton.
    exists n, ex, resp, doc. rewrite Hmode.
    split; [done |]. split; [done |]. split; [done |]. split; [done |].
    split; [done |]. by exists b, rs, d.
Qed.

Lemma for_exchanges_records E cfg next prev exs p p' oe :
  (∀ ex, ex ∈ exs → ex ∈ exchanges cfg) →
  for_exchanges E cfg next prev exs p = (p', oe) →
  ∃ news, records_of (out p') = records_of (out p) ++ news ∧
          Forall (record_for E cfg next) news.
Proof.
  revert p. induction exs as [| ex exs IH]; intros p Hsub; cbn.
  - intros [= <- <-]. exists []. rewrite app_nil_r. split; [done | constructor].
  - assert (ex ∈ exchanges cfg) as Hex by (apply Hsub; by left).
    destruct (exchange_step E cfg next prev ex p) as [p1 [e |]] eqn:Hs.
    + intros [= <- <-]. by eapply exchange_step_records.
    + intros H. apply IH in H as (n2 & Hr2 & Hf2); [| intros ex' ?; apply Hsub; by right].
      apply exchange_step_records in Hs as (n1 & Hr1 & Hf1); [| done].
      exists (n1 ++ n2). rewrite Hr2, Hr1, app_assoc. split; [done |].
      by apply Forall_app.
Qed.

(** X17.  Every record a run writes is made of an answer the provider gave:
    some call, asked for a configured exchange on a date the run walked,
    was answered with a status that is no error and a document bearing
    exactly that date; the record is that document as received when the
    run is schemaless, and the flattening of its base, date and rates,
    with the date as a midnight timestamp, when it is not. *)
Theorem records_belong_to_walked_dates E fuel cfg start r :
  do_sync E fuel cfg start = Some r →
  Forall (λ rec, ∃ s, s ∈ walked (r_frame r) ∧ record_for E cfg s rec)
    (records_of (out (r_proc r))).
Proof.
  intros Hr.
  destruct (do_sync_inv _ _ _ _ _ Hr) as (p & fr & raised & Hw & ->).
  destruct (finish_records p fr raised) as [-> ->].
  assert (∀ q fr0 q' oe,
            Forall (λ rec, ∃ s, s ∈ walked fr0 ∧ record_for E cfg s rec)
              (records_of (out q)) →
            for_exchanges E cfg (next_date fr0) (prev_schema fr0) (exchanges cfg) q
              = (q', oe) →
            Forall (λ rec, ∃ s, s ∈ walked fr0 ++ [next_date fr0]
                                ∧ record_for E cfg s rec)
              (records_of (out q'))) as Hbody.
  { intros q fr0 q' oe Hq Hb.
    apply for_exchanges_records in Hb as (news & -> & Hnews); [| done].
    apply Forall_app. split.
    - eapply Forall_impl; [exact Hq |]. intros rec (s & Hs & Hrec).
      exists s. split; [| done]. apply elem_of_app. by left.
    - eapply Forall_impl; [exact Hnews |]. intros rec Hrec.
      exists (next_date fr0). split; [| done]. apply elem_of_app. right.
      by apply list_elem_of_singleton. }
  revert Hw.
  apply (while_loop_rule E cfg
           (λ _ q f, Forall (λ rec, ∃ s, s ∈ walked f ∧ record_for E cfg s rec)
                       (records_of (out q)))
           (λ q f _, Forall (λ rec, ∃ s, s ∈ walked f ∧ record_for E cfg s rec)
                       (records_of (out q)))); try done.
  - intros i q fr0 d0 q' e Hq _ _ Hb. cbn. by eapply Hbody.
  - intros i q fr0 d0 q' Hq _ _ Hb _. cbn. by eapply Hbody.
  - intros i q fr0 d0 q' d' Hq _ _ Hb _. cbn. by eapply Hbody.
Qed.

Lemma records_belong_to_walked_dates_witness :
  do_sync two_days 5 (typed [usd]) "2024-01-01" = Some two_days_run ∧
  Forall (λ rec, ∃ s, s ∈ walked (r_frame two_days_run)
                      ∧ record_for two_days (typed [usd]) s rec)
    (records_of (out (r_proc two_days_run))).
Proof.
  split; [vm_compute; reflexivity |].
  apply (records_belong_to_walked_dates two_days 5 (typed [usd]) "2024-01-01").
  vm_compute; reflexivity.
Defined.

(** *** Schemas come before the records they declare *)

Lemma latest_schema_app l a b :
  latest_schema l (a ++ b) = latest_schema (latest_schema l a) b.
Proof. apply foldl_app. Qed.

Lemma well_declared_app l a b :
  well_declared l (a ++ b) ↔ well_declared l a ∧ well_declared (latest_schema l a) b.
Proof.
  revert l. induction a as [| m a IH]; intros l; cbn; [tauto |].
  destruct m; cbn; rewrite IH; tauto.
Qed.

Lemma latest_schema_last l ms :
  latest_schema l ms = from_option Some l (last (schemas_of ms)).
Proof.
  induction ms as [| m ms IH] using rev_ind; [done |].
  rewrite latest_schema_app. unfold schemas_of. rewrite omap_app.
  destruct m; cbn; rewrite ?app_nil_r, ?last_snoc; done.
Qed.

Lemma extends_antisym a b : extends a b → extends b a → a = b.
Proof.
  intros [Ht Hab] [_ Hba]. apply schema_eq; [done |]. by apply (anti_symm (⊆)).
Qed.

Lemma declares_raw sch (doc : document) rs :
  doc_rates doc = Some rs → declares (update_schema sch rs) (Raw doc).
Proof.
  intros Hr rs' k Hr' [v Hk]. rewrite Hr in Hr'. simplify_eq.
  rewrite update_schema_lookup.
  destruct (properties sch !! k); [done |]. by rewrite Hk.
Qed.

Lemma declares_flat sch (pl : payload dict) d :
  is_Some (properties sch !! "date") →
  declares (update_schema sch (rates pl)) (Flat (flattened_of pl d)).
Proof.
  intros [v Hdate]. exists pl, d. split; [done |]. intros k. unfold flattened_of.
  rewrite update_schema_lookup.
  destruct (decide (k = "date")) as [-> | Hk]; [intros _; right; by rewrite Hdate |].
  rewrite lookup_insert_ne by done.
  destruct (decide (k = base pl)) as [-> | Hb]; [by left |].
  rewrite lookup_insert_ne by done. intros [w Hw]. right.
  destruct (properties sch !! k); [done |]. by rewrite Hw.
Qed.

(** One iteration: what it writes is declared, and after it the schema
    last written is the schema object. *)
Lemma exchange_step_declared E cfg next prev ex p p' oe :
  well_declared None (out p) →
  (prev = None ∨ latest_schema None (out p) = Some (cur_schema p)) →
  (∀ s, prev = Some s → extends s (cur_schema p)) →
  is_Some (properties (cur_schema p) !! "date") →
  exchange_step E cfg next prev ex p = (p', oe) →
  well_declared None (out p') ∧
  (oe = None → latest_schema None (out p') = Some (cur_schema p')).
Proof.
  intros Hwd Hlatest Hprev Hdate H%exchange_step_cases.
  assert (∀ f rs recs,
            (recs = [] ∨ ∃ rec, recs = [RECORD "exchange_rate" rec] ∧
                                declares (update_schema (cur_schema p) rs) rec) →
            well_declared None (out (evolved f prev rs recs p)) ∧
            latest_schema None (out (evolved f prev rs recs p))
              = Some (cur_schema (evolved f prev rs recs p))) as Hmk.
  { intros f rs recs Hrecs. unfold evolved. cbn.
    set (sch := update_schema (cur_schema p) rs) in *.
    assert (extends (cur_schema p) sch) as Hext by apply update_schema_extends.
    rewrite well_declared_app, latest_schema_app.
    destruct (decide (Some sch ≠ prev)) as [Hne | Heq].
    - destruct Hrecs as [-> | (rec & -> & Hrec)]; cbn; eauto 10.
    - apply dec_stable in Heq.
      destruct Hlatest as [-> | Hl]; [done |].
      assert (cur_schema p = sch) as Hcur.
      { apply extends_antisym; [done |]. by apply Hprev. }
      rewrite Hl, Hcur.
      destruct Hrecs as [-> | (rec & -> & Hrec)]; cbn; eauto 10. }
  destruct H as [e Hf | resp Hf Hj | resp doc Hf Hj Hr | resp doc rs Hf Hj Hr Hd
                | resp doc rs dt Hf Hj Hr Hd Hne | resp doc rs Hf Hj Hr Hd Hmode
                | resp doc rs Hf Hj Hr Hd Hmode Hb
                | resp doc rs b d Hf Hj Hr Hd Hmode Hb Hparse
                | resp doc rs b Hf Hj Hr Hd Hmode Hb Hparse];
    try (split; [done | done]).
  - split; [| done]. apply Hmk. by left.
  - split; [| intros _]; apply Hmk; by left.
  - split; [| intros _]; apply Hmk; right; eexists;
      (split; [done | by apply declares_raw]).
  - split; [| done]. apply Hmk. by left.
  - split; [| intros _]; apply Hmk; right; eexists;
      (split; [done | by apply (declares_flat _ (mkpayload b next rs))]).
  - split; [| done]. apply Hmk. by left.
Qed.

Lemma for_exchanges_declared E cfg next prev exs p p' oe :
  well_declared None (out p) →
  (exs = [] ∨ prev = None ∨ latest_schema None (out p) = Some (cur_schema p)) →
  (∀ s, prev = Some s → extends s (cur_schema p)) →
  is_Some (properties (cur_schema p) !! "date") →
  for_exchanges E cfg next prev exs p = (p', oe) →
  well_declared None (out p') ∧
  (oe = None → exs ≠ [] → latest_schema None (out p') = Some (cur_schema p')).
Proof.
  revert p. induction exs as [| ex exs IH]; intros p Hwd Hlatest Hprev Hdate; cbn.
  - intros [= <- <-]. by split.
  - destruct (exchange_step E cfg next prev ex p) as [p1 [e |]] eqn:Hs.
    + intros [= <- <-]. split; [| done].
      eapply exchange_step_declared; [done | | done | done | done].
      destruct Hlatest as [? | [? | ?]]; [done | by left | by right].
    + pose proof (exchange_step_grows _ _ _ _ _ _ _ _ Hs) as Hg%grows_extends.
      destruct (exchange_step_declared _ _ _ _ _ _ _ _ Hwd
                  ltac:(destruct Hlatest as [? | [? | ?]];
                        [done | by left | by right]) Hprev Hdate Hs)
        as [Hwd1 Hl1].
      specialize (Hl1 eq_refl). intros Hrest.
      assert (is_Some (properties (cur_schema p1) !! "date")) as Hdate1.
      { destruct Hdate as [v Hv]. exists v.
        destruct Hg as [_ Hsub]. by eapply lookup_weaken. }
      assert (∀ s, prev = Some s → extends s (cur_schema p1)) as Hprev1.
      { intros s Hs'. etrans; [by apply Hprev | done]. }
      destruct (IH p1 Hwd1 ltac:(by right; right) Hprev1 Hdate1 Hrest) as [Hwd' Hl'].
      split; [done |]. intros Hoe _.
      destruct exs as [| ex' exs]; [| by apply Hl'].
      cbn in Hrest. by simplify_eq.
Qed.

Lemma while_loop_declared E fuel cfg start p fr raised :
  while_loop E fuel cfg 0 boot (mkframe start start None []) = Some (p, fr, raised) →
  well_declared None (out p).
Proof.
  apply (while_loop_rule E cfg
           (λ _ q f,
              well_declared None (out q) ∧
              (exchanges cfg = [] ∨ prev_schema f = None
               ∨ latest_schema None (out q) = Some (cur_schema q)) ∧
              (∀ s, prev_schema f = Some s → extends s (cur_schema q)) ∧
              is_Some (properties (cur_schema q) !! "date"))
           (λ q _ _, well_declared None (out q))).
  - by intros i q f (? & _) _.
  - by intros i q f d (? & _) _ _.
  - intros i q f d q' e (Hwd & Hl & Hp & Hd) _ _ Hb.
    by eapply for_exchanges_declared.
  - intros i q f d q' (Hwd & Hl & Hp & Hd) _ _ Hb _.
    by eapply for_exchanges_declared.
  - intros i q f d q' d' (Hwd & Hl & Hp & Hd) _ _ Hb _.
    pose proof (for_exchanges_grows _ _ _ _ _ _ _ _ Hb) as Hg%grows_extends.
    destruct (for_exchanges_declared _ _ _ _ _ _ _ _ Hwd Hl Hp Hd Hb) as [Hwd' Hl'].
    split; [done |]. cbn. split; [| split].
    + destruct (exchanges cfg) as [| ex exs] eqn:Hex; [by left |].
      right; right. by apply Hl'.
    + by intros s [= <-].
    + destruct Hd as [v Hv]. exists v. destruct Hg as [_ Hsub].
      by eapply lookup_weaken.
  - cbn. split; [done |]. split; [by right; left |]. split; [done |].
    by eexists.
Qed.

(** X18.  In the output of every run, each record comes after a schema
    message, and the schema written last before the record declares it:
    every rate code of the record is a property of that schema, and so is
    [date] for a flattened record.  The base currency, which flattening
    adds to the record, is the one key the schema may lack. *)
Theorem records_follow_their_schema E fuel cfg start r pre stream rec post :
  do_sync E fuel cfg start = Some r →
  out (r_proc r) = pre ++ RECORD stream rec :: post →
  ∃ sch, last (schemas_of pre) = Some sch ∧ declares sch rec.
Proof.
  intros Hr Hout.
  destruct (do_sync_inv _ _ _ _ _ Hr) as (p & fr & raised & Hw & ->).
  apply while_loop_declared in Hw.
  assert (well_declared None (out (r_proc (finish p fr raised)))) as Hwd.
  { unfold finish. destruct raised as [[[u |] [resp |] | | | |] |]; cbn; try done;
      apply well_declared_app; by split. }
  rewrite Hout in Hwd. apply well_declared_app in Hwd as [_ Hrec].
  cbn in Hrec. destruct Hrec as [(sch & Hl & Hdecl) _].
  exists sch. split; [| done]. rewrite latest_schema_last in Hl.
  by destruct (last (schemas_of pre)).
Qed.

Lemma records_follow_their_schema_witness :
  do_sync two_days 5 (typed [usd]) "2024-01-01" = Some two_days_run ∧
  out (r_proc two_days_run)
    = [SCHEMA "exchange_rate" schema_eur_gbp "date";
       RECORD "exchange_rate" (flat "USD" "2024-01-01")]
      ++ RECORD "exchange_rate" (flat "USD" "2024-01-02") :: [STATE "2024-01-02"] ∧
  ∃ sch, last (schemas_of [SCHEMA "exchange_rate" schema_eur_gbp "date";
                           RECORD "exchange_rate" (flat "USD" "2024-01-01")])
           = Some sch ∧
         declares sch (flat "USD" "2024-01-02").
Proof.
  split; [vm_compute; reflexivity |]. split; [reflexivity |].
  apply (records_follow_their_schema two_days 5 (typed [usd]) "2024-01-01"
           two_days_run _ "exchange_rate" _ [STATE "2024-01-02"]);
    [vm_compute; reflexivity | reflexivity].
Defined.

End OutputFacts.

(** ** The run that succeeds *)

Module SuccessPath.
Import Tap Notions Scenarios CalendarFacts FetchFacts SyncFacts Checkpointing
  DateWalker.

(** With a provider that answers every call with a document and no error
    status and a clock that stays on the day [T], the loop started at a day
    [S0] of a year of four digits, not after [T], is left by its condition,
    the first date walked being [S0] and the last [T]. *)
Lemma while_loop_reaches_today E fuel cfg S0 T p p' fr' raised :
  always_serves E →
  Calendar.valid_date S0 = true → Calendar.valid_date T = true →
  1000 <= Calendar.year S0 →
  (∀ i, Calendar.dt_date (utcnow E i) = T) →
  Calendar.date_leb S0 T = true →
  Calendar.date_ltb T Calendar.max_date = true →
  while_loop E fuel cfg 0 p
    (mkframe (Calendar.strftime S0) (Calendar.strftime S0) None [])
    = Some (p', fr', raised) →
  raised = None ∧
  state fr' = Calendar.strftime T ∧
  head (walked fr') = Some (Calendar.strftime S0) ∧
  last (walked fr') = Some (Calendar.strftime T).
Proof.
  intros Hok HS0 HT Hy Hclock HS0T HTmax.
  apply (while_loop_rule E cfg
           (λ _ _ fr,
              ∃ d, Calendar.valid_date d = true ∧ 1000 <= Calendar.year d ∧
                   next_date fr = Calendar.strftime d ∧
                   ((walked fr = [] ∧ d = S0) ∨
                    ∃ d0, Calendar.valid_date d0 = true ∧
                          Calendar.add_one_day d0 = Some d ∧
                          Calendar.date_leb d0 T = true ∧
                          state fr = Calendar.strftime d0 ∧
                          head (walked fr) = Some (Calendar.strftime S0) ∧
                          last (walked fr) = Some (Calendar.strftime d0)))
           (λ _ fr raised,
              raised = None ∧ state fr = Calendar.strftime T ∧
              head (walked fr) = Some (Calendar.strftime S0) ∧
              last (walked fr) = Some (Calendar.strftime T))).
  - intros i q fr (d & Hv & Hy4 & Hn & _) Hd.
    rewrite Hn, strptime_strftime in Hd; done.
  - intros i q fr d0 (d & Hv & Hy4 & Hn & Hcase) Hd Hle.
    rewrite Hn, strptime_strftime in Hd by done. simplify_eq.
    rewrite Hclock in Hle. split; [done |].
    destruct Hcase as [[_ ->] | (d1 & Hv1 & Ha & Hle1 & Hst & Hh & Hl)]; [congruence |].
    apply date_leb_ltb_or_eq in Hle1 as [Hlt | ->]; [| done].
    pose proof (add_one_day_least _ _ _ Hv1 HT Ha Hlt). congruence.
  - intros i q fr d0 q' e _ Hd _ Hb.
    destruct (for_exchanges_never_raises E cfg (next_date fr) (prev_schema fr)
                (exchanges cfg) q d0 Hok Hd) as (q1 & Hq1).
    rewrite Hq1 in Hb. done.
  - intros i q fr d0 q' (d & Hv & Hy4 & Hn & _) Hd Hle _ Ha.
    rewrite Hn, strptime_strftime in Hd by done. simplify_eq.
    rewrite Hclock in Hle. apply add_one_day_None in Ha; [| done]. subst d0.
    pose proof (date_leb_ltb_trans _ _ _ Hle HTmax) as Hlt.
    by rewrite date_ltb_irrefl in Hlt.
  - intros i q fr d0 q' d' (d & Hv & Hy4 & Hn & Hcase) Hd Hle _ Ha.
    rewrite Hn, strptime_strftime in Hd by done. simplify_eq.
    rewrite Hclock in Hle. exists d'.
    split; [by eapply add_one_day_valid |].
    split; [pose proof (add_one_day_year _ _ Ha); lia |].
    split; [done |]. right.
    exists d0. cbn. rewrite last_snoc, Hn.
    split; [done |]. split; [done |]. split; [done |]. split; [done |].
    split; [| done].
    destruct Hcase as [[-> ->] | (d1 & _ & _ & _ & _ & Hh & _)]; [done |].
    destruct (walked fr); [done | exact Hh].
  - exists S0. split; [done |]. split; [done |]. split; [done |]. by left.
Qed.

(** X20.  When the provider answers every call with a complete document
    and no error status, and the clock stays on a day [T] before the last
    day of the calendar, a run started at a day [S0] of a year of four
    digits, not after [T], ends normally; the last date it walked is [T],
    and the last message it wrote is the state holding [T]. *)
Theorem complete_run_checkpoints_today E cfg S0 T :
  always_serves E →
  Calendar.valid_date S0 = true → Calendar.valid_date T = true →
  1000 <= Calendar.year S0 →
  (∀ i, Calendar.dt_date (utcnow E i) = T) →
  Calendar.date_leb S0 T = true →
  Calendar.date_ltb T Calendar.max_date = true →
  ∃ fuel r,
    do_sync E fuel cfg (Calendar.strftime S0) = Some r ∧
    r_exit r = ExitNormally ∧
    last (walked (r_frame r)) = Some (Calendar.strftime T) ∧
    last (out (r_proc r)) = Some (STATE (Calendar.strftime T)).
Proof.
  intros Hok HS0 HT Hy Hclock HS0T HTmax.
  destruct (do_sync_terminates E cfg (Calendar.strftime S0)) as (fuel & r & Hr & _).
  destruct (do_sync_inv _ _ _ _ _ Hr) as (p & fr & raised & Hw & ->).
  destruct (while_loop_reaches_today _ _ _ _ _ _ _ _ _ Hok HS0 HT Hy Hclock HS0T HTmax Hw)
    as (-> & Hst & Hh & Hl).
  exists fuel, (finish p fr None). split; [done |]. cbn.
  split; [done |]. split; [done |]. by rewrite last_snoc, Hst.
Qed.

Lemma complete_run_checkpoints_today_witness :
  always_serves two_days ∧
  Calendar.valid_date (Calendar.mkdate 2024 1 1) = true ∧
  Calendar.valid_date (Calendar.mkdate 2024 1 2) = true ∧
  1000 <= Calendar.year (Calendar.mkdate 2024 1 1) ∧
  (∀ i, Calendar.dt_date (utcnow two_days i) = Calendar.mkdate 2024 1 2) ∧
  Calendar.date_leb (Calendar.mkdate 2024 1 1) (Calendar.mkdate 2024 1 2) = true ∧
  Calendar.date_ltb (Calendar.mkdate 2024 1 2) Calendar.max_date = true ∧
  ∃ fuel r,
    do_sync two_days fuel (typed [usd]) (Calendar.strftime (Calendar.mkdate 2024 1 1))
      = Some r ∧
    r_exit r = ExitNormally ∧
    last (walked (r_frame r)) = Some (Calendar.strftime (Calendar.mkdate 2024 1 2)) ∧
    last (out (r_proc r)) = Some (STATE (Calendar.strftime (Calendar.mkdate 2024 1 2))).
Proof.
  split; [apply two_days_always_serves |]. split; [reflexivity |].
  split; [reflexivity |]. split; [cbn; lia |]. split; [intros i; reflexivity |].
  split; [reflexivity |]. split; [reflexivity |].
  apply (complete_run_checkpoints_today two_days (typed [usd])
           (Calendar.mkdate 2024 1 1) (Calendar.mkdate 2024 1 2));
    [apply two_days_always_serves | reflexivity | reflexivity | cbn; lia
    | intros i; reflexivity | reflexivity | reflexivity].
Defined.

(** X19.  Started without a state file, [main] takes the configured start
    date through the date parser and runs the sync from the day it names:
    when that day is of a year of four digits, the provider answers every
    call with a complete document and no error status, and the clock stays
    on a day [T] not before that day, [main] ends normally, the first date
    it walks is that day, and its last message is the state holding [T]. *)
Theorem main_without_state_checkpoints_today E cfg S0 T :
  strptime_with_tz E (start_date cfg) = Some S0 →
  always_serves E →
  Calendar.valid_date S0 = true → Calendar.valid_date T = true →
  1000 <= Calendar.year S0 →
  (∀ i, Calendar.dt_date (utcnow E i) = T) →
  Calendar.date_leb S0 T = true →
  Calendar.date_ltb T Calendar.max_date = true →
  ∃ fuel r,
    main E fuel cfg ∅ = Some (Sync r) ∧
    r_exit r = ExitNormally ∧
    head (walked (r_frame r)) = Some (Calendar.strftime S0) ∧
    last (out (r_proc r)) = Some (STATE (Calendar.strftime T)).
Proof.
  intros Hcfg Hok HS0 HT Hy Hclock HS0T HTmax.
  destruct (do_sync_terminates E cfg (Calendar.strftime S0)) as (fuel & r & Hr & _).
  destruct (do_sync_inv _ _ _ _ _ Hr) as (p & fr & raised & Hw & ->).
  destruct (while_loop_reaches_today _ _ _ _ _ _ _ _ _ Hok HS0 HT Hy Hclock HS0T HTmax Hw)
    as (-> & Hst & Hh & Hl).
  exists fuel, (finish p fr None).
  split.
  { unfold main. rewrite decide_False by (by intros []). cbn zeta.
    rewrite lookup_empty, Hcfg, Hr. done. }
  cbn. split; [done |]. split; [done |]. by rewrite last_snoc, Hst.
Qed.

Lemma main_without_state_checkpoints_today_witness :
  strptime_with_tz two_days (start_date (typed [usd])) = Some (Calendar.mkdate 2024 1 1) ∧
  always_serves two_days ∧
  Calendar.valid_date (Calendar.mkdate 2024 1 1) = true ∧
  Calendar.valid_date (Calendar.mkdate 2024 1 2) = true ∧
  1000 <= Calendar.year (Calendar.mkdate 2024 1 1) ∧
  (∀ i, Calendar.dt_date (utcnow two_days i) = Calendar.mkdate 2024 1 2) ∧
  Calendar.date_leb (Calendar.mkdate 2024 1 1) (Calendar.mkdate 2024 1 2) = true ∧
  Calendar.date_ltb (Calendar.mkdate 2024 1 2) Calendar.max_date = true ∧
  ∃ fuel r,
    main two_days fuel (typed [usd]) ∅ = Some (Sync r) ∧
    r_exit r = ExitNormally ∧
    head (walked (r_frame r)) = Some (Calendar.strftime (Calendar.mkdate 2024 1 1)) ∧
    last (out (r_proc r)) = Some (STATE (Calendar.strftime (Calendar.mkdate 2024 1 2))).
Proof.
  split; [reflexivity |]. split; [apply two_days_always_serves |].
  split; [reflexivity |]. split; [reflexivity |]. split; [cbn; lia |].
  split; [intros i; reflexivity |].
  split; [reflexivity |]. split; [reflexivity |].
  apply (main_without_state_checkpoints_today two_days (typed [usd])
           (Calendar.mkdate 2024 1 1) (Calendar.mkdate 2024 1 2));
    [reflexivity | apply two_days_always_serves | reflexivity | reflexivity
    | cbn; lia | intros i; reflexivity | reflexivity | reflexivity].
Defined.

End SuccessPath.

(** ** The call that ends a run *)

Module LastCall.
Import Tap Notions Scenarios FetchFacts SyncFacts Checkpointing FetchPolicy.





End LastCall.

(** ** The first date of a run *)

Module FirstDate.
Import Tap Notions Scenarios CalendarFacts SyncFacts Checkpointing.

(** X22.  A run whose start date parses and is not after today walks that
    date first, under the very string it was given: a run resumed from a
    checkpoint processes the checkpointed date again. *)
Theorem start_date_walked_first E fuel cfg start d r :
  Calendar.strptime start = Some d →
  Calendar.date_leb d (Calendar.dt_date (utcnow E 0)) = true →
  do_sync E fuel cfg start = Some r →
  head (walked (r_frame r)) = Some start.
Proof.
  intros Hd Hle Hr.
  destruct (do_sync_inv _ _ _ _ _ Hr) as (p & fr & raised & Hw & ->).
  assert (head (walked fr) = Some start) as Hh.
  { revert Hw.
    apply (while_loop_rule E cfg
             (λ i _ f, (i = 0%nat ∧ walked f = [] ∧ next_date f = start) ∨
                       head (walked f) = Some start)
             (λ _ f _, head (walked f) = Some start)).
    - intros i q f [(_ & _ & Hn) | Hh] Hnone; [congruence | done].
    - intros i q f d0 [(-> & _ & Hn) | Hh] Hd0 Hle0; [| done].
      rewrite Hn in Hd0. simplify_eq. congruence.
    - intros i q f d0 q' e [(_ & Hw0 & Hn) | Hh] _ _ _; cbn.
      + by rewrite Hw0, Hn.
      + by rewrite head_app, Hh.
    - intros i q f d0 q' [(_ & Hw0 & Hn) | Hh] _ _ _ _; cbn.
      + by rewrite Hw0, Hn.
      + by rewrite head_app, Hh.
    - intros i q f d0 q' d' [(_ & Hw0 & Hn) | Hh] _ _ _ _; right; cbn.
      + by rewrite Hw0, Hn.
      + by rewrite head_app, Hh.
    - by left. }
  unfold finish. by destruct raised as [[[u |] [resp |] | | | |] |].
Qed.

Lemma start_date_walked_first_witness :
  Calendar.strptime "2024-01-01" = Some (Calendar.mkdate 2024 1 1) ∧
  Calendar.date_leb (Calendar.mkdate 2024 1 1)
    (Calendar.dt_date (utcnow refused_on_second_day 0)) = true ∧
  do_sync refused_on_second_day 5 (typed [usd]) "2024-01-01"
    = Some refused_on_second_day_run ∧
  head (walked (r_frame refused_on_second_day_run)) = Some "2024-01-01".
Proof.
  split; [reflexivity |]. split; [reflexivity |]. split; [vm_compute; reflexivity |].
  apply (start_date_walked_first refused_on_second_day 5 (typed [usd]) "2024-01-01"
           (Calendar.mkdate 2024 1 1));
    [reflexivity | reflexivity | vm_compute; reflexivity].
Defined.

End FirstDate.
